(** * CCResourceLoader: frame-sliced resource loading

    A shallow embedding of [CCResourceLoader.h] (cocos2dx-common).

    - Part I embeds the task bodies that the header defines inline
      ([LoadTask::load] and its overrides), running against an explicit
      model of the engine collaborators they call.
    - Part II embeds the loader itself ([run], [addLoadTask], [doLoad]),
      whose bodies the header only declares.
    - Part III proves the properties.

    Durations ([float] seconds in the source) are integers counting a fixed
    time unit (milliseconds): the scheduling logic only subtracts and
    compares them. *)

From Stdlib Require Import ZArith List Lia Bool.
From stdpp Require Import gmap strings list list_numbers.

Local Open Scope Z_scope.

(* ===================================================================== *)
(** * Part I.  Engine collaborators and load tasks                        *)
(* ===================================================================== *)

Abbreviation duration := Z (only parsing).

(** ** Memory handed around as character pointers *)

(** A buffer address; [NULL] is never the address of a live buffer. *)
Abbreviation ptr := nat (only parsing).
Definition NULL : ptr := 0%nat.

Abbreviation Heap := (gmap nat (list Byte.byte)) (only parsing).

(** Contents of the buffer [p] points to, if any. *)
Definition deref (h : Heap) (p : ptr) : option (list Byte.byte) :=
  if decide (p = NULL) then None else h !! p.

(** [(int)len] for an [unsigned long len]: two's complement, 32 bits. *)
Definition to_int (z : Z) : Z := (z + 2 ^ 31) mod 2 ^ 32 - 2 ^ 31.

(** The [DECRYPT_FUNC] typedef (buffer, length, out-parameter for the
    decrypted length; returns the decrypted buffer): a possibly null
    function pointer.  The callee receives the buffer and its
    length, may allocate or overwrite memory, and returns the decrypted
    buffer together with the value it stored through the out-parameter. *)
Definition DECRYPT_FUNC : Type :=
  option (ptr -> Z -> Heap -> ptr * Z * Heap).

(** ** Engine objects *)

Record CCSpriteFrame := mkSpriteFrame {
  frameName : string;
  frameTexture : option string
}.

(** What a [CCArray] holds: the tasks put sprite frames (possibly a null
    pointer, when the frame is unknown) or animation frames into it. *)
Inductive CCObject :=
| SpriteFrameObj (sf : option CCSpriteFrame)
| AnimationFrameObj (sf : option CCSpriteFrame) (delay : duration).

Record CCAnimation := mkAnimation {
  animFrames : list CCObject;
  delayPerUnit : duration;
  restoreOriginalFrame : bool
}.

(** Calls into collaborators whose state the tasks never read back
    (localization store, texture cache, image decoder) and the memory
    traffic around them, in program order. *)
Inductive Call :=
| CAddAndroidStrings (lan path : string) (merge : bool)
| CAddImage (name : string)
| CGetFileData (name : string) (result : ptr) (len : Z)
| CDecrypt (data : ptr) (content : option (list Byte.byte)) (len : Z)
| CInitWithImageData (data : ptr) (content : option (list Byte.byte)) (len : Z)
| CAddUIImage (key : string)
| CFree (p : ptr)
| CAddSpriteFramesWithFile (plist : string) (tex : option string)
| CPreloadEffect (name : string)
| CPreloadMusic (name : string).

#[global] Instance byte_eq_dec : EqDecision Byte.byte := Byte.byte_eq_dec.

#[global] Instance Call_eq_dec : EqDecision Call.
Proof. solve_decision. Defined.

(** ** The world the tasks run in *)

Record World := mkWorld {
  files : gmap string (list Byte.byte);      (* CCFileUtils: path -> bytes  *)
  plists : gmap string (list string);        (* frame names each plist declares *)
  heap : gmap nat (list Byte.byte);          (* live malloc'ed buffers      *)
  spriteFrames : gmap string CCSpriteFrame;  (* CCSpriteFrameCache          *)
  animations : gmap string CCAnimation;      (* CCAnimationCache            *)
  calls : list Call;                         (* oldest first                *)
  invalidFrees : list nat                    (* see [free]                  *)
}.

Definition set_heap (h : Heap) (w : World) : World :=
  mkWorld (files w) (plists w) h (spriteFrames w) (animations w) (calls w)
          (invalidFrees w).
Definition set_spriteFrames (m : gmap string CCSpriteFrame) (w : World) : World :=
  mkWorld (files w) (plists w) (heap w) m (animations w) (calls w)
          (invalidFrees w).
Definition set_animations (m : gmap string CCAnimation) (w : World) : World :=
  mkWorld (files w) (plists w) (heap w) (spriteFrames w) m (calls w)
          (invalidFrees w).
Definition record (c : Call) (w : World) : World :=
  mkWorld (files w) (plists w) (heap w) (spriteFrames w) (animations w)
          (calls w ++ [c]) (invalidFrees w).

(** ** Exceptions and the monad of task bodies *)

Inductive Exn :=
| out_of_range (index size : nat)   (* thrown by [std::vector::at] *)
| BackendExecutionError
| IndexError
| QueueStateError.

Inductive Res (A : Type) :=
| Ok (a : A)
| Throw (e : Exn).
Arguments Ok {A} a.
Arguments Throw {A} e.

(** A task body: it mutates the world and either returns or throws; what it
    did before throwing stays done. *)
Definition M (A : Type) : Type := World -> Res A * World.

Definition ret {A} (a : A) : M A := fun w => (Ok a, w).
Definition throw {A} (e : Exn) : M A := fun w => (Throw e, w).
Definition bind {A B} (m : M A) (k : A -> M B) : M B :=
  fun w => match m w with
           | (Ok a, w') => k a w'
           | (Throw e, w') => (Throw e, w')
           end.
Definition gets {A} (f : World -> A) : M A := fun w => (Ok (f w), w).
Definition modify (f : World -> World) : M unit := fun w => (Ok tt, f w).

#[global] Instance M_ret : MRet M := @ret.
#[global] Instance M_bind : MBind M := fun A B k m => bind m k.

(** ** Collaborator operations *)

(** [CCFileUtils::getFileData(name, "rb", &len)]: a freshly allocated
    buffer holding the file, or [NULL] with length 0. *)
Definition getFileData (name : string) : M (ptr * Z) :=
  fun w =>
    match files w !! name with
    | Some bytes =>
        let p : ptr := fresh ({[NULL]} ∪ dom (heap w)) in
        let len := Z.of_nat (length bytes) in
        (Ok (p, len), record (CGetFileData name p len)
                             (set_heap (<[p := bytes]> (heap w)) w))
    | None => (Ok (NULL, 0), record (CGetFileData name NULL 0) w)
    end.

(** The call through [func] with [data], [len] and [&decLen]; [len] is
    converted to [int]. *)
Definition callDecrypt (f : ptr -> Z -> Heap -> ptr * Z * Heap)
    (data : ptr) (len : Z) : M (ptr * Z) :=
  fun w =>
    let '(dec, decLen, h) := f data (to_int len) (heap w) in
    (Ok (dec, decLen),
     set_heap h (record (CDecrypt data (deref (heap w) data) (to_int len)) w)).

(** [image->initWithImageData(dec, decLen)] *)
Definition initWithImageData (dec : ptr) (decLen : Z) : M unit :=
  fun w => (Ok tt, record (CInitWithImageData dec (deref (heap w) dec) decLen) w).

(** [CCTextureCache::addUIImage(image, key)]; the texture is named by its key. *)
Definition addUIImage (key : string) : M string :=
  fun w => (Ok key, record (CAddUIImage key) w).

(** [free(p)]: the buffer [p] is live no longer; [free(NULL)] is allowed
    and releases nothing.  Freeing a pointer that is neither null nor live
    (freed before, or never allocated) is undefined in C: the call is
    kept in [invalidFrees], so that a property can rule it out. *)
Definition free (p : ptr) : M unit :=
  fun w =>
    (Ok tt,
     mkWorld (files w) (plists w) (delete p (heap w)) (spriteFrames w)
             (animations w) (calls w ++ [CFree p])
             (invalidFrees w ++
              (if decide (p ≠ NULL ∧ heap w !! p = None) then [p] else []))).

(** [CCSpriteFrameCache::addSpriteFramesWithFile(plist)] and
    [addSpriteFramesWithFile(plist, tex)]: registers every frame the plist
    declares. *)
Definition addSpriteFramesWithFile (plist : string) (tex : option string) : M unit :=
  fun w =>
    let names := default [] (plists w !! plist) in
    let cache :=
      foldl (fun m n => <[n := mkSpriteFrame n tex]> m) (spriteFrames w) names in
    (Ok tt, record (CAddSpriteFramesWithFile plist tex) (set_spriteFrames cache w)).

(** [CCSpriteFrameCache::spriteFrameByName]: null when unknown. *)
Definition spriteFrameByName (name : string) : M (option CCSpriteFrame) :=
  gets (fun w => spriteFrames w !! name).

(** [CCAnimationCache::animationByName]: null when unknown. *)
Definition animationByName (name : string) : M (option CCAnimation) :=
  gets (fun w => animations w !! name).

(** [CCAnimationCache::addAnimation(anim, name)] *)
Definition addAnimation (anim : CCAnimation) (name : string) : M unit :=
  modify (fun w => set_animations (<[name := anim]> (animations w)) w).

(** [std::vector::at]: bounds-checked access. *)
Definition at_ {A} (v : list A) (i : nat) : M A :=
  match v !! i with
  | Some x => ret x
  | None => throw (out_of_range i (length v))
  end.

(** ** Load tasks *)

(** [struct LoadTask]: an idle time and a virtual [load]. *)
Record LoadTask := mkLoadTask {
  idle : duration;
  load : M unit
}.

(** [LoadTask() : idle(0.1f)] *)
Definition default_idle : duration := 100.

(** The [float] literal [1], one second. *)
Definition one_second : duration := 1000.

(** The base class: [virtual void load() {}]. *)
Definition baseLoadTask : LoadTask := mkLoadTask default_idle (ret tt).


Definition ImageLoadTask_load (name : string) : M unit :=
  modify (record (CAddImage name)).

Definition EncryptedImageLoadTask_load (name : string) (func : DECRYPT_FUNC) : M unit :=
  (* load encrypted data *)
  '(data, len) ← getFileData name;
  (* create texture *)
  '(dec, decLen) ← match func with
                    | Some f => callDecrypt f data len
                    | None => ret (data, to_int len)
                    end;
  initWithImageData dec decLen;;
  _ ← addUIImage name;
  (* free *)
  (if decide (dec ≠ data) then free dec else ret tt);;
  free data.


Definition EncryptedZwoptexLoadTask_load (name texName : string)
    (func : DECRYPT_FUNC) : M unit :=
  (* load encrypted data *)
  '(data, len) ← getFileData texName;
  (* create texture *)
  '(dec, decLen) ← match func with
                    | Some f => callDecrypt f data len
                    | None => ret (data, to_int len)
                    end;
  initWithImageData dec decLen;;
  tex ← addUIImage texName;
  (* free *)
  (if decide (dec ≠ data) then free dec else ret tt);;
  free data;;
  (* add zwoptex *)
  addSpriteFramesWithFile name (Some tex).

(** The loop of [ZwoptexAnimLoadTask::load]: one array entry per frame name. *)
Fixpoint collectSpriteFrames (frames : list string) (array : list CCObject)
    : M (list CCObject) :=
  match frames with
  | [] => ret array
  | n :: rest =>
      f ← spriteFrameByName n;
      collectSpriteFrames rest (array ++ [SpriteFrameObj f])
  end.

Definition ZwoptexAnimLoadTask_load (frames : list string) (name : string)
    (unitDelay : duration) (restore : bool) : M unit :=
  cached ← animationByName name;
  match cached with
  | Some _ => ret tt
  | None =>
      array ← collectSpriteFrames frames [];
      addAnimation (mkAnimation array unitDelay restore) name
  end.

(** The loop of [ZwoptexAnimLoadTask2::load]: [i] runs from its current
    value up to [size]; [fuel] is the number of iterations left.  ([size]
    and [i] are [int]s in the source; frame lists stay far below 2^31.) *)
Fixpoint collectAnimationFrames (frames : list string) (durations : list duration)
    (i : nat) (fuel : nat) (array : list CCObject) : M (list CCObject) :=
  match fuel with
  | O => ret array
  | S fuel' =>
      n ← at_ frames i;
      sf ← spriteFrameByName n;
      delay ← at_ durations i;
      collectAnimationFrames frames durations (S i) fuel'
        (array ++ [AnimationFrameObj sf delay])
  end.

Definition ZwoptexAnimLoadTask2_load (frames : list string)
    (durations : list duration) (restore : bool) (name : string) : M unit :=
  cached ← animationByName name;
  match cached with
  | Some _ => ret tt
  | None =>
      let size := length frames in
      array ← collectAnimationFrames frames durations 0 size [];
      addAnimation (mkAnimation array one_second restore) name
  end.


Definition ImageLoadTask (name : string) : LoadTask :=
  mkLoadTask default_idle (ImageLoadTask_load name).
Definition EncryptedImageLoadTask (name : string) (func : DECRYPT_FUNC) : LoadTask :=
  mkLoadTask default_idle (EncryptedImageLoadTask_load name func).
Definition EncryptedZwoptexLoadTask (name texName : string) (func : DECRYPT_FUNC)
    : LoadTask :=
  mkLoadTask default_idle (EncryptedZwoptexLoadTask_load name texName func).
Definition ZwoptexAnimLoadTask (frames : list string) (name : string)
    (unitDelay : duration) (restore : bool) : LoadTask :=
  mkLoadTask default_idle (ZwoptexAnimLoadTask_load frames name unitDelay restore).
Definition ZwoptexAnimLoadTask2 (frames : list string) (durations : list duration)
    (restore : bool) (name : string) : LoadTask :=
  mkLoadTask default_idle (ZwoptexAnimLoadTask2_load frames durations restore name).


(** [t->idle = idle] after construction. *)
Definition with_idle (d : duration) (t : LoadTask) : LoadTask :=
  mkLoadTask d (load t).

(* ===================================================================== *)
(** * Part II.  The loader                                                *)
(* ===================================================================== *)

(** The header declares the loader's fields and the signatures of [run],
    [addLoadTask], the [addXxxTask] builders and [doLoad]; their bodies are
    in the implementation file.  The definitions of this part follow the
    state machine of the specification, section 4.2, rule by rule. *)

(** The four states of section 4.2. *)
Inductive State := Idle | Starting | Active | Finished.

#[global] Instance State_eq_dec : EqDecision State.
Proof. solve_decision. Defined.

(** The private fields of [CCResourceLoader], plus the state of the state
    machine.  The listener [m_listener] is not a field here: what it is
    told is recorded in the log of [Sys] below. *)
Record CCResourceLoader := mkLoader {
  state : State;
  m_delay : duration;                (* startupDelay  *)
  m_remainingIdle : duration;        (* remainingIdle *)
  m_nextLoad : Z;                    (* nextIndex     *)
  m_loadTaskList : list LoadTask     (* the queue     *)
}.

(** What an observer of one loader sees, in order: a unit's [load] being
    entered, and the two listener callbacks. *)
Inductive Action :=
| Exec (i : Z)
| onUnitLoaded (completedIndex total : Z)
| onAllLoaded.

#[global] Instance Action_eq_dec : EqDecision Action.
Proof. solve_decision. Defined.

(** A loader together with the world its units act on and everything
    observed so far (oldest first). *)
Record Sys := mkSys {
  loader : CCResourceLoader;
  world : World;
  log : list Action
}.

(** Modelled from the spec: the constructor [CCResourceLoader(listener)];
    a new loader is [Idle] with an empty queue, cursor 0 and no countdown. *)
Definition newLoader : CCResourceLoader := mkLoader Idle 0 0 0 [].

Definition init (w : World) : Sys := mkSys newLoader w [].

(** [setDelay], generated by [CC_SYNTHESIZE(float, m_delay, Delay)]. *)
Definition setDelay (d : duration) (l : CCResourceLoader) : CCResourceLoader :=
  mkLoader (state l) d (m_remainingIdle l) (m_nextLoad l) (m_loadTaskList l).

(** Modelled from the spec: the body of [CCResourceLoader::run] (rule 1):
    from [Idle] it moves to [Starting] and arms the countdown with the
    startup delay. *)
Definition run (l : CCResourceLoader) : CCResourceLoader :=
  match state l with
  | Idle => mkLoader Starting (m_delay l) (m_delay l) (m_nextLoad l) (m_loadTaskList l)
  | _ => l
  end.

(** Modelled from the spec: the body of [CCResourceLoader::addLoadTask]
    ([append], section 4.1: adds to the tail).  The header gives it the
    result type [void] and the class no field that records a call of
    [run]; section 9 says of the source that it takes no action on an
    append after the run has started.  So the unit is appended whatever
    the loader is doing, and nothing is thrown. *)
Definition addLoadTask (t : LoadTask) (l : CCResourceLoader) : CCResourceLoader :=
  mkLoader (state l) (m_delay l) (m_remainingIdle l) (m_nextLoad l)
           (m_loadTaskList l ++ [t]).




(** Modelled from the spec: [get(i)] of section 4.1: the i-th unit, or
    [IndexError] when out of bounds. *)
Definition get (q : list LoadTask) (i : Z) : Res LoadTask :=
  if bool_decide (0 <= i < Z.of_nat (length q)) then
    match q !! Z.to_nat i with
    | Some u => Ok u
    | None => Throw IndexError
    end
  else Throw IndexError.

(** Modelled from the spec: rule 2 of section 4.2, the first half of
    [doLoad]: while the countdown is positive a tick is subtracted from it,
    and an overshoot is clamped to 0. *)
Definition drain (remaining delta : duration) : duration :=
  if bool_decide (0 < remaining) then
    let r := remaining - delta in
    if bool_decide (r <= 0) then 0 else r
  else remaining.

(** Modelled from the spec: the body of [CCResourceLoader::doLoad]
    ([advance(delta)], section 4.2 rules 2 to 5 and section 7).
    - Rule 2: while [remainingIdle > 0] the tick is subtracted and the
      result clamped at 0 ([drain]).
    - Rule 3: when [remainingIdle == 0], also when rule 2 has just brought
      it there, the state is [Starting] or [Active] and
      [nextIndex < queue.length]: the unit under the cursor is executed,
      the cursor incremented, the countdown set to that unit's idle time,
      the listener told [(completedIndex, total)], the state made [Active].
    - Rule 4: when the cursor then equals the queue length, the state is
      [Finished] and the listener is told of completion, in the same call.
    - Rule 5: after [Finished] a call does nothing.
    - Section 7: a unit that fails aborts the call; the cursor is not
      moved and nothing is notified.
    The second component is the exception that leaves the call, if any:
    nothing is caught here. *)
Definition doLoad (delta : duration) (y : Sys) : Sys * option Exn :=
  let l := loader y in
  match state l with
  | Idle => (y, None)                (* not registered for ticks *)
  | Finished => (y, None)            (* rule 5 *)
  | Starting | Active =>
      (* rule 2 *)
      let r := drain (m_remainingIdle l) delta in
      let l1 := mkLoader (state l) (m_delay l) r (m_nextLoad l) (m_loadTaskList l) in
      let total := Z.of_nat (length (m_loadTaskList l)) in
      if bool_decide (r = 0) && bool_decide (m_nextLoad l < total) then
        (* rule 3 *)
        match get (m_loadTaskList l) (m_nextLoad l) with
        | Throw e => (mkSys l1 (world y) (log y), Some e)
        | Ok u =>
            let entered := log y ++ [Exec (m_nextLoad l)] in
            match load u (world y) with
            | (Throw e, w') => (mkSys l1 w' entered, Some e)
            | (Ok _, w') =>
                let next := m_nextLoad l + 1 in
                let progress := entered ++ [onUnitLoaded (next - 1) total] in
                if bool_decide (next = total) then
                  (* rule 4 *)
                  (mkSys (mkLoader Finished (m_delay l) (idle u) next (m_loadTaskList l))
                         w' (progress ++ [onAllLoaded]), None)
                else
                  (mkSys (mkLoader Active (m_delay l) (idle u) next (m_loadTaskList l))
                         w' progress, None)
            end
        end
      else (mkSys l1 (world y) (log y), None)
  end.

(** ** Driving a loader *)

(** What a client can do with a loader. *)
Inductive Op :=
| OpSetDelay (d : duration)
| OpAdd (t : LoadTask)
| OpRun
| OpTick (delta : duration).

(** One client operation; an exception is handed back to the client, the
    loader staying as the failed operation left it. *)
Definition step (o : Op) (y : Sys) : Sys * option Exn :=
  match o with
  | OpSetDelay d => (mkSys (setDelay d (loader y)) (world y) (log y), None)
  | OpAdd t => (mkSys (addLoadTask t (loader y)) (world y) (log y), None)
  | OpRun => (mkSys (run (loader y)) (world y) (log y), None)
  | OpTick delta => doLoad delta y
  end.

(** A client that catches every exception and carries on. *)
Definition steps (os : list Op) (y : Sys) : Sys :=
  foldl (fun y o => fst (step o y)) y os.

(** A loader built with [queue] and startup delay [s], then started. *)
Definition started (queue : list LoadTask) (s : duration) (w : World) : Sys :=
  steps (OpSetDelay s :: (OpAdd <$> queue) ++ [OpRun]) (init w).

(** Ticks only, exceptions caught. *)
Definition ticks (deltas : list duration) (y : Sys) : Sys :=
  steps (OpTick <$> deltas) y.

(** The listener's view of a log. *)
Definition is_notice (a : Action) : bool :=
  match a with Exec _ => false | _ => true end.
Definition notices (l : list Action) : list Action := List.filter is_notice l.

Definition is_exec (a : Action) : bool :=
  match a with Exec _ => true | _ => false end.
Definition executions (l : list Action) : nat := length (List.filter is_exec l).

(** Number of listener callbacks made so far. *)
Definition listenerCalls (y : Sys) : nat := length (notices (log y)).

(** An empty world, for examples. *)
Definition emptyWorld : World := mkWorld ∅ ∅ ∅ ∅ ∅ [] [].

(** A unit that only waits: the base [LoadTask] with a given idle time. *)
Definition pause (d : duration) : LoadTask := with_idle d baseLoadTask.


(** ** Vocabulary of the properties *)

(** What one call of [doLoad] may add to the log of a loader whose queue
    has [total] units. *)
Inductive TickShape (total : Z) : list Action -> Prop :=
| tick_quiet : TickShape total []
| tick_failed i : TickShape total [Exec i]
| tick_unit i : i + 1 < total -> TickShape total [Exec i; onUnitLoaded i total]
| tick_last :
    TickShape total [Exec (total - 1); onUnitLoaded (total - 1) total; onAllLoaded].

(** The callbacks a listener has received once [k] of [total] units are
    done. *)
Definition expectedNotices (total k : Z) (finished : bool) : list Action :=
  ((fun i => onUnitLoaded i total) <$> seqZ 0 k) ++
  (if finished then [onAllLoaded] else []).

(** What holds of the log of a loader however it was driven. *)
Definition Coherent (y : Sys) : Prop :=
  let l := loader y in
  let total := Z.of_nat (length (m_loadTaskList l)) in
  0 <= m_nextLoad l /\
  (state l = Idle -> log y = [] /\ m_nextLoad l = 0) /\
  (state l = Finished -> m_nextLoad l = total) /\
  notices (log y) =
    expectedNotices total (m_nextLoad l) (bool_decide (state l = Finished)) /\
  exists groups, log y = concat groups /\ Forall (TickShape total) groups.

(** The invariant of section 3, word for word. *)
Definition statedInvariant (l : CCResourceLoader) : Prop :=
  0 <= m_nextLoad l <= Z.of_nat (length (m_loadTaskList l)) /\
  0 <= m_remainingIdle l /\
  (state l = Finished <-> m_nextLoad l = Z.of_nat (length (m_loadTaskList l))).


(** Delays that are not negative. *)
Definition delaysOk (l : CCResourceLoader) : Prop :=
  0 <= m_delay l /\ Forall (fun u => 0 <= idle u) (m_loadTaskList l).

(** A tick finds the countdown over and a unit left to run. *)
Definition due (delta : duration) (l : CCResourceLoader) : bool :=
  match state l with
  | Starting | Active =>
      bool_decide (drain (m_remainingIdle l) delta = 0) &&
      bool_decide (0 <= m_nextLoad l < Z.of_nat (length (m_loadTaskList l)))
  | _ => false
  end.

(** What one call of [doLoad] is to add to the log: nothing when no unit
    is due; the execution alone when the unit throws; the execution, its
    [onUnitLoaded] and, after the last unit, [onAllLoaded] when the unit
    returns. *)
Definition tickOutput (delta : duration) (y : Sys) : list Action :=
  let l := loader y in
  let i := m_nextLoad l in
  let total := Z.of_nat (length (m_loadTaskList l)) in
  if due delta l then
    match get (m_loadTaskList l) i with
    | Ok u =>
        match fst (load u (world y)) with
        | Ok _ => [Exec i; onUnitLoaded i total] ++
                  (if bool_decide (i + 1 = total) then [onAllLoaded] else [])
        | Throw _ => [Exec i]
        end
    | Throw _ => []
    end
  else [].

(** Ticks long enough to end any countdown of the queue. *)
Definition longTick (q : list LoadTask) (s : duration) (delta : duration) : Prop :=
  s <= delta /\ Forall (fun u => idle u <= delta) q.

(** A unit whose [load] returns, whatever the world. *)
Definition reliable (u : LoadTask) : Prop :=
  forall w, exists w', load u w = (Ok tt, w').

(** ** Vocabulary of the decrypt contract *)

Definition is_decrypt (c : Call) : bool :=
  match c with CDecrypt _ _ _ => true | _ => false end.
Definition is_decode (c : Call) : bool :=
  match c with CInitWithImageData _ _ _ => true | _ => false end.

Definition frees (p : ptr) (c : Call) : bool :=
  match c with CFree q => Nat.eqb q p | _ => false end.

(** The world right after the raw file was read. *)
Definition afterRead (texName : string) (w : World) : World :=
  snd (getFileData texName w).

(** The raw buffer and its length, as [getFileData] returned them. *)
Definition rawBuffer (texName : string) (w : World) : ptr * Z :=
  match fst (getFileData texName w) with
  | Ok r => r
  | Throw _ => (NULL, 0)
  end.

(** What the image decoder is handed: the hook's result when there is a
    hook, the raw buffer otherwise. *)
Definition decoderInput (texName : string) (func : DECRYPT_FUNC) (w : World)
    : ptr * option (list Byte.byte) * Z :=
  let '(data, len) := rawBuffer texName w in
  match func with
  | Some f =>
      let '(dec, decLen, h) := f data (to_int len) (heap (afterRead texName w)) in
      (dec, deref h dec, decLen)
  | None => (data, files w !! texName, to_int len)
  end.

(** The calls made while the texture of an encrypted unit is loaded, from
    reading the file to releasing the raw buffer. *)
Definition textureCalls (texName : string) (func : DECRYPT_FUNC) (w : World)
    : list Call :=
  let '(data, len) := rawBuffer texName w in
  let '(dec, content, decLen) := decoderInput texName func w in
  [CGetFileData texName data len] ++
  (match func with
   | Some _ => [CDecrypt data (files w !! texName) (to_int len)]
   | None => []
   end) ++
  [CInitWithImageData dec content decLen; CAddUIImage texName] ++
  (if decide (dec ≠ data) then [CFree dec] else []) ++
  [CFree data].

(** Position of the first call satisfying [p]. *)
Fixpoint position (p : Call -> bool) (l : list Call) : option nat :=
  match l with
  | [] => None
  | c :: rest => if p c then Some 0%nat else S <$> position p rest
  end.

(** Examples used below. *)
Definition sampleWorld : World :=
  mkWorld {["a.png" := [Byte.x41; Byte.x42]]} ∅ ∅ ∅ ∅ [] [].
Definition sampleHook : DECRYPT_FUNC :=
  Some (fun p len h => (S p, len, <[S p := [Byte.x00]]> h)).

(** ** Vocabulary of the further properties *)

(** The two animation units, as data. *)
Inductive AnimTask :=
| UniformAnim (frames : list string) (name : string) (unitDelay : duration)
              (restore : bool)
| PerFrameAnim (frames : list string) (durations : list duration)
               (restore : bool) (name : string).

Definition animTask (a : AnimTask) : LoadTask :=
  match a with
  | UniformAnim frames name unitDelay restore =>
      ZwoptexAnimLoadTask frames name unitDelay restore
  | PerFrameAnim frames durations restore name =>
      ZwoptexAnimLoadTask2 frames durations restore name
  end.

Definition animName (a : AnimTask) : string :=
  match a with
  | UniformAnim _ name _ _ => name
  | PerFrameAnim _ _ _ name => name
  end.

(** The array entry made for a frame name, uniform and per-frame variant. *)
Definition spriteEntry (w : World) (n : string) : CCObject :=
  SpriteFrameObj (spriteFrames w !! n).
Definition timedEntry (w : World) (n : string) (d : duration) : CCObject :=
  AnimationFrameObj (spriteFrames w !! n) d.

(** The animation an animation unit builds from the sprite-frame cache,
    if its lists allow it. *)
Definition builtAnimation (a : AnimTask) (w : World) : option CCAnimation :=
  match a with
  | UniformAnim frames _ unitDelay restore =>
      Some (mkAnimation (spriteEntry w <$> frames) unitDelay restore)
  | PerFrameAnim frames durations restore _ =>
      if decide (length frames <= length durations)%nat
      then Some (mkAnimation (zip_with (timedEntry w) frames durations)
                             one_second restore)
      else None
  end.

(** A hook that keeps to its own memory: it leaves the buffer it is given
    live; the buffer it returns is that one, or null, or one that was not
    live before the call and is live after it; and it touches no other
    buffer. *)
Definition tidy (func : DECRYPT_FUNC) : Prop :=
  match func with
  | None => True
  | Some f =>
      forall data len (h : gmap nat (list Byte.byte)),
        let dec := (f data len h).1.1 in
        let h' := (f data len h).2 in
        (is_Some (h !! data) -> is_Some (h' !! data)) /\
        (dec = data \/ dec = NULL \/ (h !! dec = None /\ is_Some (h' !! dec))) /\
        (forall q, q <> data -> q <> dec -> h' !! q = h !! q)
  end.

(** A hook that decrypts in place, and one that returns a new buffer. *)
Definition inPlaceHook : DECRYPT_FUNC :=
  Some (fun p len h => (p, len, <[p := [Byte.x00]]> h)).
Definition copyingHook : DECRYPT_FUNC :=
  Some (fun p len h =>
          let q := fresh ({[NULL; p]} ∪ dom h) in (q, len, <[q := [Byte.x00]]> h)).

(* ===================================================================== *)
(** * Part III.  Properties                                               *)
(* ===================================================================== *)

(** ** Encrypted units *)

Lemma fresh_not_NULL (h : gmap nat (list Byte.byte)) :
  fresh ({[NULL]} ∪ dom h) ≠ NULL.
Proof.
  intros E. pose proof (is_fresh ({[NULL]} ∪ dom h)) as F.
  rewrite E in F. set_solver.
Qed.

Lemma deref_NULL h : deref h NULL = None.
Proof. reflexivity. Qed.

Lemma deref_insert h p bytes : p ≠ NULL -> deref (<[p := bytes]> h) p = Some bytes.
Proof.
  intros D. unfold deref. case_decide; [done|]. by rewrite lookup_insert_eq.
Qed.

Lemma rawBuffer_content name w :
  deref (heap (afterRead name w)) (fst (rawBuffer name w)) = files w !! name.
Proof.
  unfold afterRead, rawBuffer, getFileData.
  destruct (files w !! name) as [bytes|] eqn:E; simpl.
  - apply deref_insert, fresh_not_NULL.
  - apply deref_NULL.
Qed.

Ltac run_task :=
  unfold mbind, M_bind, bind, mret, M_ret, ret, getFileData, callDecrypt,
    initWithImageData, addUIImage, free, addSpriteFramesWithFile, record, set_heap,
    set_spriteFrames; simpl.

(** Case analysis shared by the two encrypted bodies: is the file there, is
    there a hook, did the hook return the buffer it was given. *)
Ltac texture_cases name func w :=
  destruct (files w !! name) as [?bytes|] eqn:?E; simpl;
  destruct func as [?f|]; simpl;
  rewrite ?(deref_insert _ _ _ (fresh_not_NULL _));
  repeat match goal with
         | |- context [?f ?p ?n ?h] =>
             match type of f with
             | nat -> Z -> _ -> _ =>
                 let F := fresh "F" in
                 destruct (f p n h) as [[?dec ?decLen] ?h'] eqn:F; simpl
             end
         end;
  repeat case_decide; simpl; try done.

Lemma EncryptedImageLoadTask_calls name func w :
  calls (snd (load (EncryptedImageLoadTask name func) w)) =
  calls w ++ textureCalls name func w.
Proof.
  unfold textureCalls, decoderInput, rawBuffer, afterRead. simpl.
  unfold EncryptedImageLoadTask_load. run_task.
  texture_cases name func w; by rewrite <- !app_assoc.
Qed.

Lemma EncryptedZwoptexLoadTask_calls plist name func w :
  calls (snd (load (EncryptedZwoptexLoadTask plist name func) w)) =
  calls w ++ textureCalls name func w ++ [CAddSpriteFramesWithFile plist (Some name)].
Proof.
  unfold textureCalls, decoderInput, rawBuffer, afterRead. simpl.
  unfold EncryptedZwoptexLoadTask_load. run_task.
  texture_cases name func w; by rewrite <- !app_assoc.
Qed.

Lemma EncryptedImageLoadTask_released name func w :
  heap (snd (load (EncryptedImageLoadTask name func) w)) !! fst (rawBuffer name w) = None.
Proof.
  unfold rawBuffer. simpl. unfold EncryptedImageLoadTask_load. run_task.
  texture_cases name func w; apply lookup_delete_eq.
Qed.

Lemma EncryptedZwoptexLoadTask_released plist name func w :
  heap (snd (load (EncryptedZwoptexLoadTask plist name func) w)) !! fst (rawBuffer name w)
  = None.
Proof.
  unfold rawBuffer. simpl. unfold EncryptedZwoptexLoadTask_load. run_task.
  texture_cases name func w; apply lookup_delete_eq.
Qed.

Lemma textureCalls_shape name func w :
  let data := fst (rawBuffer name w) in
  let len := snd (rawBuffer name w) in
  let made := textureCalls name func w in
  List.filter is_decrypt made =
    match func with
    | Some _ => [CDecrypt data (files w !! name) (to_int len)]
    | None => []
    end /\
  List.filter is_decode made =
    [let '(dec, content, decLen) := decoderInput name func w in
     CInitWithImageData dec content decLen] /\
  match func with
  | Some _ => position is_decrypt made = Some 1%nat /\
              position is_decode made = Some 2%nat
  | None => decoderInput name func w = (data, files w !! name, to_int len)
  end /\
  last made = Some (CFree data) /\
  length (List.filter (frees data) made) = 1%nat.
Proof.
  unfold textureCalls, decoderInput, rawBuffer, afterRead, getFileData.
  texture_cases name func w.
  all: rewrite ?Nat.eqb_refl; split_and!; try done.
  all: match goal with
       | H : ?a ≠ ?b |- _ => apply Nat.eqb_neq in H; by rewrite H
       end.
Qed.

(** C8. While an encrypted image or atlas unit loads, the decrypt hook is
    called exactly once, on the raw bytes of the file and before the image
    decoder; without a hook the decoder gets the raw bytes as they were
    read; and the raw buffer is freed, once and last, whether or not a hook
    ran. *)
Theorem decrypt_hook_contract (name plist : string) (func : DECRYPT_FUNC) (w : World) :
  let image := snd (load (EncryptedImageLoadTask name func) w) in
  let atlas := snd (load (EncryptedZwoptexLoadTask plist name func) w) in
  let data := fst (rawBuffer name w) in
  let len := snd (rawBuffer name w) in
  let made := textureCalls name func w in
  (* both bodies make exactly these calls *)
  calls image = calls w ++ made /\
  calls atlas = calls w ++ made ++ [CAddSpriteFramesWithFile plist (Some name)] /\
  (* the raw buffer holds the bytes of the file *)
  deref (heap (afterRead name w)) data = files w !! name /\
  (* the hook: once, on the raw bytes *)
  List.filter is_decrypt made =
    match func with
    | Some _ => [CDecrypt data (files w !! name) (to_int len)]
    | None => []
    end /\
  (* the decoder: once, on the hook's result or on the raw bytes *)
  List.filter is_decode made =
    [let '(dec, content, decLen) := decoderInput name func w in
     CInitWithImageData dec content decLen] /\
  match func with
  | Some _ => position is_decrypt made = Some 1%nat /\
              position is_decode made = Some 2%nat
  | None => decoderInput name func w = (data, files w !! name, to_int len)
  end /\
  (* the raw buffer is released, once and after use *)
  last made = Some (CFree data) /\
  length (List.filter (frees data) made) = 1%nat /\
  heap image !! data = None /\
  heap atlas !! data = None.
Proof.
  intros image atlas data len made.
  destruct (textureCalls_shape name func w) as (A & B & C & D & E).
  split_and!; try done.
  - apply EncryptedImageLoadTask_calls.
  - apply EncryptedZwoptexLoadTask_calls.
  - apply rawBuffer_content.
  - apply EncryptedImageLoadTask_released.
  - apply EncryptedZwoptexLoadTask_released.
Qed.

(** An encrypted image with a hook that returns a fresh one-byte buffer:
    the hook sees the two bytes of the file, the decoder sees the hook's
    buffer, both buffers are freed. *)
Example encrypted_image_example :
  let w := snd (load (EncryptedImageLoadTask "a.png" sampleHook) sampleWorld) in
  calls w = [CGetFileData "a.png" 1 2;
             CDecrypt 1 (Some [Byte.x41; Byte.x42]) 2;
             CInitWithImageData 2 (Some [Byte.x00]) 2;
             CAddUIImage "a.png"; CFree 2; CFree 1] /\
  heap w = ∅.
Proof. by vm_compute. Qed.

(** ** Animation units *)

Ltac run_anim :=
  unfold mbind, M_bind, bind, mret, M_ret, ret, throw, gets, modify,
    animationByName, spriteFrameByName, addAnimation, at_; simpl.

Lemma collectSpriteFrames_reads frames : forall array w,
  exists arr, collectSpriteFrames frames array w = (Ok arr, w).
Proof.
  induction frames as [|n rest IH]; intros array w; simpl.
  - by exists array.
  - run_anim. apply IH.
Qed.

Lemma collectAnimationFrames_world frames durations fuel : forall i array w,
  snd (collectAnimationFrames frames durations i fuel array w) = w.
Proof.
  induction fuel as [|fuel IH]; intros i array w; simpl; [done|].
  run_anim.
  destruct (frames !! i); simpl; [|done].
  destruct (durations !! i); simpl; [|done].
  apply IH.
Qed.

(** With fewer durations than frames the loop runs into [durations.at(i)]
    at [i = durations.size()]. *)
Lemma collectAnimationFrames_short frames durations fuel : forall i array w,
  (i + fuel = length frames)%nat ->
  (i <= length durations < length frames)%nat ->
  fst (collectAnimationFrames frames durations i fuel array w) =
  Throw (out_of_range (length durations) (length durations)).
Proof.
  induction fuel as [|fuel IH]; intros i array w Hsum Hi; simpl.
  - lia.
  - run_anim.
    destruct (frames !! i) as [n|] eqn:Fi; simpl.
    2: { apply lookup_ge_None in Fi. lia. }
    destruct (durations !! i) as [d|] eqn:Di; simpl.
    + apply lookup_lt_Some in Di. apply IH; lia.
    + apply lookup_ge_None in Di. by replace i with (length durations) by lia.
Qed.

(** With at least as many durations as frames the loop completes. *)
Lemma collectAnimationFrames_long frames durations fuel : forall i array w,
  (i + fuel = length frames)%nat ->
  (length frames <= length durations)%nat ->
  exists arr, collectAnimationFrames frames durations i fuel array w = (Ok arr, w).
Proof.
  induction fuel as [|fuel IH]; intros i array w Hsum Hlen; simpl.
  - by exists array.
  - run_anim.
    destruct (frames !! i) as [n|] eqn:Fi; simpl.
    2: { apply lookup_ge_None in Fi. lia. }
    destruct (durations !! i) as [d|] eqn:Di; simpl.
    2: { apply lookup_ge_None in Di. lia. }
    apply IH; lia.
Qed.

Lemma ZwoptexAnimLoadTask2_short frames durations restore name w :
  (length durations < length frames)%nat ->
  animations w !! name = None ->
  ZwoptexAnimLoadTask2_load frames durations restore name w =
  (Throw (out_of_range (length durations) (length durations)), w).
Proof.
  intros Hlen Hc. unfold ZwoptexAnimLoadTask2_load. run_anim. rewrite Hc.
  pose proof (collectAnimationFrames_short frames durations (length frames)
                0 [] w eq_refl ltac:(lia)) as Hf.
  pose proof (collectAnimationFrames_world frames durations (length frames)
                0 [] w) as Hw.
  destruct (collectAnimationFrames _ _ _ _ _ _) as [r w']. simpl in *.
  by subst.
Qed.

Lemma ZwoptexAnimLoadTask2_long frames durations restore name w :
  (length frames <= length durations)%nat ->
  fst (ZwoptexAnimLoadTask2_load frames durations restore name w) = Ok tt.
Proof.
  intros Hlen. unfold ZwoptexAnimLoadTask2_load. run_anim.
  destruct (animations w !! name); [done|].
  destruct (collectAnimationFrames_long frames durations (length frames)
              0 [] w eq_refl Hlen) as [arr ->].
  done.
Qed.

Lemma ZwoptexAnimLoadTask_cached frames name unitDelay restore w :
  is_Some (animations w !! name) ->
  ZwoptexAnimLoadTask_load frames name unitDelay restore w = (Ok tt, w).
Proof.
  intros [a Ha]. unfold ZwoptexAnimLoadTask_load. run_anim. by rewrite Ha.
Qed.

Lemma ZwoptexAnimLoadTask2_cached frames durations restore name w :
  is_Some (animations w !! name) ->
  ZwoptexAnimLoadTask2_load frames durations restore name w = (Ok tt, w).
Proof.
  intros [a Ha]. unfold ZwoptexAnimLoadTask2_load. run_anim. by rewrite Ha.
Qed.

Lemma set_animations_lookup m w name :
  animations (set_animations m w) !! name = m !! name.
Proof. reflexivity. Qed.

Lemma ZwoptexAnimLoadTask_twice frames name unitDelay restore w :
  let body := ZwoptexAnimLoadTask_load frames name unitDelay restore in
  snd (body (snd (body w))) = snd (body w).
Proof.
  intros body.
  destruct (animations w !! name) as [a|] eqn:Hc.
  - assert (body w = (Ok tt, w)) as Hb
      by (apply ZwoptexAnimLoadTask_cached; rewrite Hc; eauto).
    rewrite Hb. simpl. by rewrite Hb.
  - assert (exists arr, body w =
              (Ok tt, set_animations (<[name := arr]> (animations w)) w))
      as [arr Hb].
    { subst body. unfold ZwoptexAnimLoadTask_load. run_anim. rewrite Hc.
      destruct (collectSpriteFrames_reads frames [] w) as [arr ->]. eauto. }
    rewrite Hb. simpl. subst body.
    rewrite ZwoptexAnimLoadTask_cached; [done|].
    rewrite set_animations_lookup, lookup_insert_eq. eauto.
Qed.

Lemma ZwoptexAnimLoadTask2_twice frames durations restore name w :
  let body := ZwoptexAnimLoadTask2_load frames durations restore name in
  snd (body (snd (body w))) = snd (body w).
Proof.
  intros body.
  destruct (animations w !! name) as [a|] eqn:Hc.
  - assert (body w = (Ok tt, w)) as Hb
      by (apply ZwoptexAnimLoadTask2_cached; rewrite Hc; eauto).
    rewrite Hb. simpl. by rewrite Hb.
  - destruct (decide (length frames <= length durations)%nat) as [Hlen|Hlen].
    + assert (exists arr, body w =
                (Ok tt, set_animations (<[name := arr]> (animations w)) w))
        as [arr Hb].
      { subst body. unfold ZwoptexAnimLoadTask2_load. run_anim. rewrite Hc.
        destruct (collectAnimationFrames_long frames durations (length frames)
                    0 [] w eq_refl Hlen) as [arr ->]. eauto. }
      rewrite Hb. simpl. subst body.
      rewrite ZwoptexAnimLoadTask2_cached; [done|].
      rewrite set_animations_lookup, lookup_insert_eq. eauto.
    + assert (body w = (Throw (out_of_range (length durations) (length durations)), w))
        as Hb by (apply ZwoptexAnimLoadTask2_short; [lia|done]).
      rewrite Hb. simpl. by rewrite Hb.
Qed.

(** C10. The animation units are guarded by the animation cache: when the
    unit's name is already cached, [load] does nothing at all, and loading
    the same unit twice leaves the world, the cache included, as loading it
    once does. *)
Theorem animation_tasks_idempotent (frames : list string) (durations : list duration)
    (name : string) (unitDelay : duration) (restore : bool)
    (a : CCAnimation) (w : World) :
  let t1 := ZwoptexAnimLoadTask frames name unitDelay restore in
  let t2 := ZwoptexAnimLoadTask2 frames durations restore name in
  let cached := set_animations (<[name := a]> (animations w)) w in
  load t1 cached = (Ok tt, cached) /\
  load t2 cached = (Ok tt, cached) /\
  snd (load t1 (snd (load t1 w))) = snd (load t1 w) /\
  snd (load t2 (snd (load t2 w))) = snd (load t2 w) /\
  animations (snd (load t1 (snd (load t1 w)))) = animations (snd (load t1 w)) /\
  animations (snd (load t2 (snd (load t2 w)))) = animations (snd (load t2 w)).
Proof.
  intros t1 t2 cached.
  assert (is_Some (animations cached !! name)) as Hc.
  { subst cached. rewrite set_animations_lookup, lookup_insert_eq. eauto. }
  pose proof (ZwoptexAnimLoadTask_twice frames name unitDelay restore w) as H1.
  pose proof (ZwoptexAnimLoadTask2_twice frames durations restore name w) as H2.
  simpl in H1, H2.
  split_and!.
  - by apply ZwoptexAnimLoadTask_cached.
  - by apply ZwoptexAnimLoadTask2_cached.
  - exact H1.
  - exact H2.
  - simpl. by rewrite H1.
  - simpl. by rewrite H2.
Qed.

(** ** The loader: one tick *)

Lemma steps_app os1 os2 y : steps (os1 ++ os2) y = steps os2 (steps os1 y).
Proof. unfold steps. apply foldl_app. Qed.

Lemma steps_add q : forall d r n q0 w lg,
  steps (OpAdd <$> q) (mkSys (mkLoader Idle d r n q0) w lg) =
  mkSys (mkLoader Idle d r n (q0 ++ q)) w lg.
Proof.
  induction q as [|t q IH]; intros d r n q0 w lg; simpl.
  - by rewrite app_nil_r.
  - unfold steps in *. simpl. unfold addLoadTask. simpl.
    rewrite IH. by rewrite <- app_assoc.
Qed.

Lemma started_eq q s w :
  started q s w = mkSys (mkLoader Starting s s 0 q) w [].
Proof.
  unfold started. change (OpSetDelay s :: (OpAdd <$> q) ++ [OpRun])
    with ([OpSetDelay s] ++ (OpAdd <$> q) ++ [OpRun]).
  rewrite !steps_app. unfold init, newLoader.
  change (steps [OpSetDelay s] (mkSys (mkLoader Idle 0 0 0 []) w []))
    with (mkSys (mkLoader Idle s 0 0 []) w []).
  by rewrite steps_add.
Qed.

Lemma drain_nonneg r delta : 0 <= r -> 0 <= drain r delta.
Proof. unfold drain. intros. repeat case_bool_decide; lia. Qed.

Lemma get_Ok q i u :
  get q i = Ok u -> 0 <= i < Z.of_nat (length q) /\ q !! Z.to_nat i = Some u.
Proof.
  unfold get. case_bool_decide; [|done].
  destruct (q !! Z.to_nat i) eqn:E; [|done]. intros [= ->]. done.
Qed.


(** Every way through [doLoad]. *)
Ltac tick_cases y :=
  unfold doLoad;
  let St := fresh "St" in
  destruct (state (loader y)) eqn:St; simpl;
  repeat (case_bool_decide; simpl);
  repeat match goal with
         | |- context [get ?q ?i] =>
             let G := fresh "G" in destruct (get q i) as [?u|?e] eqn:G; simpl
         | |- context [load ?u ?w] =>
             let L := fresh "L" in destruct (load u w) as [[[]|?e] ?w'] eqn:L; simpl
         end;
  repeat (case_bool_decide; simpl).

(** What one tick adds to the log. *)
Lemma doLoad_log delta y :
  exists g, log (fst (doLoad delta y)) = log y ++ g /\
            TickShape (Z.of_nat (length (m_loadTaskList (loader y)))) g.
Proof.
  tick_cases y; rewrite ?Z.add_simpl_r.
  all: try (exists []; rewrite app_nil_r; split; [done|constructor]).
  all: eexists; rewrite <- ?app_assoc; (split; [reflexivity|]); simpl.
  all: try (constructor; lia).
  all: replace (m_nextLoad (loader y))
         with (Z.of_nat (length (m_loadTaskList (loader y))) - 1) by lia;
       constructor.
Qed.

Lemma executions_app l1 l2 :
  executions (l1 ++ l2) = (executions l1 + executions l2)%nat.
Proof. unfold executions. by rewrite List.filter_app, length_app. Qed.

Lemma notices_app l1 l2 : notices (l1 ++ l2) = notices l1 ++ notices l2.
Proof. apply List.filter_app. Qed.

(** What one tick does to the world and to the cursor. *)
Lemma doLoad_world delta y :
  let l := loader y in
  let y' := fst (doLoad delta y) in
  (world y' = world y /\ m_nextLoad (loader y') = m_nextLoad l /\
   executions (log y') = executions (log y)) \/
  (exists u, get (m_loadTaskList l) (m_nextLoad l) = Ok u /\
             world y' = snd (load u (world y)) /\
             m_nextLoad l <= m_nextLoad (loader y') <= m_nextLoad l + 1 /\
             executions (log y') = S (executions (log y))).
Proof.
  tick_cases y; try (left; done).
  all: right; eexists; (split; [reflexivity|]).
  all: match goal with H : load _ _ = _ |- _ => rewrite H end; simpl.
  all: rewrite ?executions_app; unfold executions; simpl.
  all: split_and!; try done; lia.
Qed.

(** C1. One call of [doLoad] runs the [load] of at most one unit, however
    long the tick: the log gains at most one execution, the world is either
    untouched or changed by the [load] of the unit under the cursor alone,
    and the cursor moves by at most one. *)
Theorem one_unit_per_tick (delta : duration) (y : Sys) :
  let l := loader y in
  let y' := fst (doLoad delta y) in
  (executions (log y') <= executions (log y) + 1)%nat /\
  m_nextLoad l <= m_nextLoad (loader y') <= m_nextLoad l + 1 /\
  (world y' = world y \/
   exists u, get (m_loadTaskList l) (m_nextLoad l) = Ok u /\
             world y' = snd (load u (world y))).
Proof.
  intros l y'.
  destruct (doLoad_world delta y) as [(W & N & E)|(u & G & W & N & E)];
    fold y' in W, N, E; fold l in N.
  - split_and!; [lia|lia|lia|by left].
  - split_and!; [lia|lia|lia|right; eauto].
Qed.

(** The example of the specification: a tick of 1000 on three units of
    idle 0 runs one unit, not three. *)
Example three_idle_free_units_example :
  let y := ticks [1000] (started [pause 0; pause 0; pause 0] 0 emptyWorld) in
  executions (log y) = 1%nat /\ m_nextLoad (loader y) = 1 /\
  log y = [Exec 0; onUnitLoaded 0 3].
Proof. by vm_compute. Qed.

(** The scenario of section 8 under the rules of section 4.2: with a
    startup delay of 0 the countdown starts at 0, so the first tick runs
    unitA at once (rule 3) and arms the countdown with unitA's idle time;
    unitB runs when that countdown is over, and [onAllLoaded] comes in the
    same tick. *)
Example two_unit_scenario :
  let y0 := started [pause 100; pause 0] 0 emptyWorld in
  let y1 := fst (doLoad 50 y0) in
  let y2 := fst (doLoad 50 y1) in
  let y3 := fst (doLoad 50 y2) in
  (log y1 = [Exec 0; onUnitLoaded 0 2] /\ m_remainingIdle (loader y1) = 100) /\
  (log y2 = log y1 /\ m_remainingIdle (loader y2) = 50) /\
  (log y3 = [Exec 0; onUnitLoaded 0 2; Exec 1; onUnitLoaded 1 2; onAllLoaded] /\
   state (loader y3) = Finished).
Proof. by vm_compute. Qed.

(** ** After the queue is drained *)

(** C5. Once the loader is [Finished], [doLoad] changes nothing: state,
    cursor, countdown, queue, world and log are those of before, no
    exception leaves the call, and the number of listener callbacks stays
    the same, for one tick as for any number of them. *)
Theorem finished_is_terminal (delta : duration) (deltas : list duration) (y : Sys)
    (Hfin : state (loader y) = Finished) :
  doLoad delta y = (y, None) /\
  loader (fst (doLoad delta y)) = loader y /\
  listenerCalls (fst (doLoad delta y)) = listenerCalls y /\
  ticks deltas y = y.
Proof.
  assert (forall d, doLoad d y = (y, None)) as Hno
    by (intros d; unfold doLoad; by rewrite Hfin).
  rewrite Hno. split_and!; try done.
  unfold ticks, steps. induction deltas as [|d ds IH]; simpl; [done|].
  by rewrite Hno.
Qed.

Lemma finished_is_terminal_witness :
  let y := ticks [0] (started [pause 5] 0 emptyWorld) in
  state (loader y) = Finished /\
  (doLoad 1000 y = (y, None) /\
   loader (fst (doLoad 1000 y)) = loader y /\
   listenerCalls (fst (doLoad 1000 y)) = listenerCalls y /\
   ticks [1; 2; 3] y = y).
Proof.
  intros y. split; [reflexivity|].
  apply (finished_is_terminal 1000 [1; 2; 3] y). reflexivity.
Defined.

(** ** Appending after [run] *)





(** ** A failing unit *)





(** ** The state invariant *)

Lemma nonempty_length {A} (q : list A) : q <> [] <-> 0 < Z.of_nat (length q).
Proof. destruct q; simpl; split; intros; try done; lia. Qed.

Lemma get_idle_nonneg q i u :
  Forall (fun u => 0 <= idle u) q -> get q i = Ok u -> 0 <= idle u.
Proof.
  intros Hq Hg. apply get_Ok in Hg as [_ Hl].
  by apply (Forall_lookup_1 _ _ _ _ Hq Hl).
Qed.

Lemma doLoad_delaysOk delta y :
  delaysOk (loader y) -> delaysOk (loader (fst (doLoad delta y))).
Proof. intros [Hd Hq]. tick_cases y; by split. Qed.

Lemma doLoad_statedInvariant delta y :
  statedInvariant (loader y) -> delaysOk (loader y) ->
  statedInvariant (loader (fst (doLoad delta y))).
Proof.
  intros (Hi & Hr & Hf) [Hd Hq].
  pose proof (drain_nonneg _ delta Hr) as Hdr.
  tick_cases y; unfold statedInvariant; simpl.
  all: try match goal with
       | G : get _ _ = Ok ?u |- _ => pose proof (get_idle_nonneg _ _ _ Hq G)
       end.
  all: try rewrite St in *.
  all: split_and!; try done; try lia.
  all: split; [intros ?|intros ?]; first [done | lia | tauto].
Qed.


(** A loader started on a queue that is not empty satisfies the invariant,
    and so does every loader that ticks lead it to. *)
Lemma started_statedInvariant q s w :
  q <> [] -> 0 <= s -> Forall (fun u => 0 <= idle u) q ->
  statedInvariant (loader (started q s w)) /\ delaysOk (loader (started q s w)).
Proof.
  intros Hne Hs Hq. rewrite started_eq. apply nonempty_length in Hne.
  unfold statedInvariant, delaysOk; simpl. split_and!; try done; try lia.
  split; [done|lia].
Qed.

Lemma ticks_statedInvariant deltas : forall y,
  statedInvariant (loader y) -> delaysOk (loader y) ->
  statedInvariant (loader (ticks deltas y)) /\ delaysOk (loader (ticks deltas y)).
Proof.
  induction deltas as [|d ds IH]; intros y HI HD; [done|].
  change (ticks (d :: ds) y) with (ticks ds (fst (doLoad d y))).
  apply IH; [by apply doLoad_statedInvariant|by apply doLoad_delaysOk].
Qed.

(** The invariant is not there from the start: a loader whose queue is
    empty has its cursor at the queue length without being [Finished]. *)
Lemma stated_invariant_not_established_on_empty_queue :
  ~ statedInvariant newLoader /\
  ~ statedInvariant (loader (started [] 0 emptyWorld)).
Proof.
  split; intros (_ & _ & [_ Hfin]); vm_compute in Hfin;
    specialize (Hfin eq_refl); discriminate.
Qed.

(** Why appends are asked to come before the end: a loader that has run
    its one unit is [Finished] and satisfies the invariant; an append,
    which nothing refuses, leaves it [Finished] with the cursor short of
    the queue length.  Section 3 admits appends before the run only. *)
Lemma append_to_finished_loader :
  let y := ticks [0] (started [pause 5] 0 emptyWorld) in
  let y' := fst (step (OpAdd (pause 0)) y) in
  statedInvariant (loader y) /\
  delaysOk (loader y) /\
  0 <= idle (pause 0) /\
  state (loader y') = Finished /\
  m_nextLoad (loader y') = 1 /\
  length (m_loadTaskList (loader y')) = 2%nat /\
  ~ statedInvariant (loader y').
Proof.
  split_and!; try reflexivity.
  - unfold statedInvariant; simpl. split_and!; try lia; done.
  - split; simpl; [lia|]. repeat constructor. simpl. lia.
  - intros (_ & _ & [Hfin _]). specialize (Hfin eq_refl).
    vm_compute in Hfin. discriminate.
Qed.



(** ** The listener protocol *)

Lemma expectedNotices_next total k :
  0 <= k ->
  expectedNotices total k false ++ [onUnitLoaded k total] =
  expectedNotices total (k + 1) false.
Proof.
  intros Hk. unfold expectedNotices. rewrite !app_nil_r.
  rewrite seqZ_app by lia. by rewrite fmap_app.
Qed.

Lemma expectedNotices_last total k :
  0 <= k ->
  expectedNotices total k false ++ [onUnitLoaded k total; onAllLoaded] =
  expectedNotices total (k + 1) true.
Proof.
  intros Hk. unfold expectedNotices. rewrite !app_nil_r.
  rewrite seqZ_app by lia. rewrite fmap_app, <- app_assoc. done.
Qed.

Lemma doLoad_queue delta y :
  m_loadTaskList (loader (fst (doLoad delta y))) = m_loadTaskList (loader y).
Proof. by tick_cases y. Qed.

Lemma doLoad_Coherent delta y :
  Coherent y -> Coherent (fst (doLoad delta y)).
Proof.
  intros (Hk & Hidle & Hfin & Hn & groups & Hlog & Hg).
  unfold Coherent. rewrite doLoad_queue.
  destruct (doLoad_log delta y) as (g & Hext & Hshape).
  assert (exists groups', log (fst (doLoad delta y)) = concat groups' /\
            Forall (TickShape (Z.of_nat (length (m_loadTaskList (loader y)))))
                   groups') as Hgroups.
  { exists (groups ++ [g]). rewrite concat_app, <- Hlog. simpl.
    rewrite app_nil_r. split; [done|]. apply Forall_app. split; [done|].
    by constructor. }
  clear Hext Hshape.
  revert Hgroups. tick_cases y.
  all: rewrite ?St in *; simpl in *.
  all: rewrite ?notices_app; simpl; rewrite ?app_nil_r, ?Z.add_simpl_r.
  all: rewrite ?Hn, ?bool_decide_eq_false_2 by done.
  all: rewrite <- ?app_assoc; simpl.
  all: rewrite ?expectedNotices_next, ?expectedNotices_last by done.
  all: intros Hgroups; split_and!; try done; try lia.
Qed.

(** A started loader is coherent, and ticks keep it so. *)
Lemma started_Coherent q s w : Coherent (started q s w).
Proof.
  rewrite started_eq. unfold Coherent; simpl. split_and!; try done.
  exists []. by split.
Qed.

Lemma ticks_cons d ds y : ticks (d :: ds) y = ticks ds (fst (doLoad d y)).
Proof. reflexivity. Qed.

Lemma ticks_Coherent deltas : forall y, Coherent y -> Coherent (ticks deltas y).
Proof.
  induction deltas as [|d ds IH]; intros y HC; [done|].
  rewrite ticks_cons. by apply IH, doLoad_Coherent.
Qed.

Lemma ticks_queue deltas : forall y,
  m_loadTaskList (loader (ticks deltas y)) = m_loadTaskList (loader y).
Proof.
  induction deltas as [|d ds IH]; intros y; [done|].
  by rewrite ticks_cons, IH, doLoad_queue.
Qed.

(** The cursor of a loader is never negative, however it was driven. *)
Lemma step_cursor_nonneg o y :
  0 <= m_nextLoad (loader y) -> 0 <= m_nextLoad (loader (fst (step o y))).
Proof.
  intros Hk. destruct o as [d|t| |delta]; simpl; try done.
  - unfold run. by destruct (state (loader y)).
  - tick_cases y; simpl; lia.
Qed.

Lemma steps_cursor_nonneg os w : 0 <= m_nextLoad (loader (steps os (init w))).
Proof.
  assert (forall y, 0 <= m_nextLoad (loader y) ->
                    0 <= m_nextLoad (loader (steps os y))) as H.
  { induction os as [|o os IH]; intros y Hy; [done|].
    unfold steps in *. simpl. by apply IH, step_cursor_nonneg. }
  by apply H.
Qed.

(** One tick adds to the log exactly what [tickOutput] says: a unit that
    is due and returns is followed by its callback in the same call. *)
Lemma doLoad_tickOutput delta y :
  log (fst (doLoad delta y)) = log y ++ tickOutput delta y.
Proof.
  unfold tickOutput, due.
  tick_cases y; rewrite ?app_nil_r, ?Z.add_simpl_r, <- ?app_assoc; simpl.
  all: try match goal with
       | G : get _ _ = Ok _ |- _ => pose proof (get_Ok _ _ _ G) as [? _]
       end.
  all: repeat (case_bool_decide; simpl); try done; try lia.
  all: repeat match goal with
       | G : get _ _ = _ |- _ => rewrite G in *; clear G
       | L : load _ _ = _ |- _ => rewrite L in *; clear L
       end; simpl; try done.
Qed.
(** A tick that meets a countdown it uses up, on a unit that loads. *)
Lemma doLoad_runs delta y u w' :
  state (loader y) = Starting \/ state (loader y) = Active ->
  drain (m_remainingIdle (loader y)) delta = 0 ->
  get (m_loadTaskList (loader y)) (m_nextLoad (loader y)) = Ok u ->
  load u (world y) = (Ok tt, w') ->
  let l := loader y in
  let total := Z.of_nat (length (m_loadTaskList l)) in
  let last := bool_decide (m_nextLoad l + 1 = total) in
  doLoad delta y =
    (mkSys (mkLoader (if last then Finished else Active) (m_delay l) (idle u)
                     (m_nextLoad l + 1) (m_loadTaskList l))
           w'
           (log y ++ [Exec (m_nextLoad l); onUnitLoaded (m_nextLoad l) total] ++
            (if last then [onAllLoaded] else [])),
     None).
Proof.
  intros Hst Hdue Hg Hl l total last. subst l total last.
  pose proof (get_Ok _ _ _ Hg) as [Hrange _].
  unfold doLoad. rewrite Hdue, Hg, Hl.
  rewrite (bool_decide_eq_true_2 (0 = 0)) by done.
  rewrite (bool_decide_eq_true_2 (m_nextLoad (loader y) < _)) by lia. simpl.
  rewrite Z.add_simpl_r.
  destruct Hst as [-> | ->]; case_bool_decide; simpl;
    by rewrite <- ?app_assoc.
Qed.

Lemma get_lookup q (j : nat) u : q !! j = Some u -> get q (Z.of_nat j) = Ok u.
Proof.
  intros Hu. apply lookup_lt_Some in Hu as Hlt. unfold get.
  rewrite bool_decide_eq_true_2 by lia. by rewrite Nat2Z.id, Hu.
Qed.

Lemma drain_long r delta : 0 <= r <= delta -> drain r delta = 0.
Proof. intros. unfold drain. repeat case_bool_decide; lia. Qed.

(** From any point of a run, ticks that are long enough run one unit
    each; as many of them as there are units left finish the queue. *)
Lemma long_ticks_finish q : forall (long : list duration) (k : nat) st d r w lg,
  (k + length long = length q)%nat ->
  long <> [] ->
  st = Starting \/ st = Active ->
  0 <= r ->
  Forall (fun u => 0 <= idle u) q ->
  Forall reliable q ->
  Forall (fun delta => r <= delta) long ->
  Forall (fun delta => Forall (fun u => idle u <= delta) q) long ->
  let z := ticks long (mkSys (mkLoader st d r (Z.of_nat k) q) w lg) in
  state (loader z) = Finished.
Proof.
  induction long as [|delta rest IH]; intros k st d r w lg Hlen Hne Hst Hr Hidle
    Hrel Hlong Hmax z; [done|].
  subst z. rewrite ticks_cons.
  simpl in Hlen.
  destruct (lookup_lt_is_Some_2 q k ltac:(lia)) as [u Hu].
  pose proof (Forall_lookup_1 _ _ _ _ Hrel Hu w) as [w' Hload].
  pose proof (Forall_lookup_1 _ _ _ _ Hidle Hu) as Hu0. simpl in Hu0.
  apply Forall_cons in Hlong as [Hd Hlong'].
  apply Forall_cons in Hmax as [Hm Hmax'].
  pose proof (doLoad_runs delta (mkSys (mkLoader st d r (Z.of_nat k) q) w lg) u w')
    as Hrun.
  simpl in Hrun.
  specialize (Hrun Hst (drain_long r delta ltac:(lia)) (get_lookup q k u Hu) Hload).
  rewrite Hrun. simpl.
  destruct rest as [|delta' rest'].
  - simpl in Hlen. rewrite bool_decide_eq_true_2 by lia. done.
  - simpl in Hlen. rewrite bool_decide_eq_false_2 by lia.
    replace (Z.of_nat k + 1) with (Z.of_nat (S k)) by lia.
    apply IH; try done.
    + simpl. lia.
    + by right.
    + clear -Hmax' Hu.
      induction Hmax' as [|x l Hx Hl IHl]; constructor; [|done].
      by apply (Forall_lookup_1 _ _ _ _ Hx Hu).
Qed.

(** ** What the listener is told *)

Lemma elem_of_notices a l : a ∈ notices l <-> a ∈ l /\ is_notice a = true.
Proof. unfold notices. rewrite !list_elem_of_In. apply filter_In. Qed.

Lemma onUnitLoaded_expected total k fin i n :
  onUnitLoaded i n ∈ expectedNotices total k fin <-> n = total /\ 0 <= i < k.
Proof.
  unfold expectedNotices. rewrite elem_of_app, list_elem_of_fmap. split.
  - intros [(j & [= -> ->] & Hj)|Hin].
    + apply elem_of_seqZ in Hj. split; [done|lia].
    + destruct fin; [|by apply elem_of_nil in Hin].
      by apply list_elem_of_singleton in Hin.
  - intros [-> Hi]. left. exists i. split; [done|]. apply elem_of_seqZ. lia.
Qed.

Lemma onAllLoaded_expected total k fin :
  onAllLoaded ∈ expectedNotices total k fin <-> fin = true.
Proof.
  unfold expectedNotices. rewrite elem_of_app, list_elem_of_fmap. split.
  - intros [(j & [=] & _)|Hin]. destruct fin; [done|by apply elem_of_nil in Hin].
  - intros ->. right. by apply list_elem_of_singleton.
Qed.

Lemma expectedNotices_NoDup total k fin : NoDup (expectedNotices total k fin).
Proof.
  unfold expectedNotices. apply NoDup_app. split_and!.
  - apply NoDup_fmap_2; [|apply NoDup_seqZ]. by intros i j [= ->].
  - intros a Ha Hin. apply list_elem_of_fmap in Ha as (j & -> & _).
    destruct fin; [|by apply elem_of_nil in Hin].
    by apply list_elem_of_singleton in Hin.
  - destruct fin; [apply NoDup_singleton|apply NoDup_nil_2].
Qed.

(** C3. In every run (a loader started on a queue of N units, then any
    ticks), the listener has been told [onUnitLoaded i N] once for each of
    the units [0 .. k-1] done so far, in increasing order of [i] and for
    no other index, and [onAllLoaded] once, last, exactly when the loader
    is [Finished], which is when all N units are done; every callback is
    made in the tick that ran its unit, directly after the unit, and
    [onAllLoaded] directly after the last [onUnitLoaded]; a tick that runs
    a unit which returns always makes the callback.  And runs do complete:
    for a queue that is not empty, of units that load, N ticks that are
    long enough end with the loader [Finished] and the listener told of
    every unit and of the completion. *)
Theorem listener_protocol (q : list LoadTask) (s : duration) (w : World)
    (deltas : list duration) (delta : duration) :
  let y := ticks deltas (started q s w) in
  let l := loader y in
  let total := Z.of_nat (length q) in
  (* what the listener has been told *)
  notices (log y) =
    expectedNotices total (m_nextLoad l) (bool_decide (state l = Finished)) /\
  (state l <> Finished \/ m_nextLoad l = total) /\
  NoDup (notices (log y)) /\
  (forall i n, onUnitLoaded i n ∈ log y <-> n = total /\ 0 <= i < m_nextLoad l) /\
  (onAllLoaded ∈ log y <-> state l = Finished) /\
  (exists groups, log y = concat groups /\ Forall (TickShape total) groups) /\
  (* what the next tick tells it *)
  log (fst (doLoad delta y)) = log y ++ tickOutput delta y /\
  (* runs that complete *)
  (q <> [] -> 0 <= s -> Forall (fun u => 0 <= idle u) q -> Forall reliable q ->
   forall long, length long = length q -> Forall (longTick q s) long ->
     let z := ticks long (started q s w) in
     state (loader z) = Finished /\
     notices (log z) = expectedNotices total total true).
Proof.
  intros y l total.
  assert (forall ds, m_loadTaskList (loader (ticks ds (started q s w))) = q) as Hq.
  { intros ds. rewrite ticks_queue. by rewrite started_eq. }
  assert (forall ds, let z := ticks ds (started q s w) in
            notices (log z) =
              expectedNotices total (m_nextLoad (loader z))
                (bool_decide (state (loader z) = Finished)) /\
            (state (loader z) = Finished -> m_nextLoad (loader z) = total) /\
            exists groups, log z = concat groups /\ Forall (TickShape total) groups)
    as Hco.
  { intros ds z.
    destruct (ticks_Coherent ds _ (started_Coherent q s w))
      as (_ & _ & Hfin & Hn & Hg).
    fold z in Hfin, Hn, Hg. subst z. rewrite Hq in Hfin, Hn, Hg. done. }
  destruct (Hco deltas) as (Hn & Hfin & Hgroups). fold y in Hn, Hfin, Hgroups.
  fold l in Hn, Hfin.
  split_and!.
  - exact Hn.
  - destruct (decide (state l = Finished)); [right; auto|by left].
  - rewrite Hn. apply expectedNotices_NoDup.
  - intros i n.
    transitivity (onUnitLoaded i n ∈ notices (log y)).
    + rewrite elem_of_notices. split; [by intros ?|by intros [? _]].
    + rewrite Hn. apply onUnitLoaded_expected.
  - transitivity (onAllLoaded ∈ notices (log y)).
    + rewrite elem_of_notices. split; [by intros ?|by intros [? _]].
    + rewrite Hn, onAllLoaded_expected. apply bool_decide_eq_true.
  - exact Hgroups.
  - apply doLoad_tickOutput.
  - intros Hne Hs Hidle Hrel long Hlen Hlong z.
    assert (state (loader z) = Finished) as Hz.
    { subst z. rewrite started_eq.
      apply (long_ticks_finish q long 0 Starting s s w []); try done.
      - intros ->. destruct q; simpl in *; [done|lia].
      - by left.
      - eapply Forall_impl; [exact Hlong|]. by intros d [? _].
      - eapply Forall_impl; [exact Hlong|]. by intros d [_ ?]. }
    split; [exact Hz|].
    destruct (Hco long) as (Hn' & Hfin' & _). fold z in Hn', Hfin'.
    rewrite Hn', (Hfin' Hz), Hz. by rewrite bool_decide_eq_true_2.
Qed.

(** A run that completes: two reliable units, two long ticks. *)
Lemma listener_protocol_witness :
  let q := [ImageLoadTask "a.png"; pause 0] in
  let z := ticks [150; 150] (started q 100 emptyWorld) in
  state (loader z) = Finished /\
  notices (log z) = [onUnitLoaded 0 2; onUnitLoaded 1 2; onAllLoaded].
Proof.
  intros q z.
  destruct (listener_protocol q 100 emptyWorld [] 0) as (_ & _ & _ & _ & _ & _ & _ & H).
  apply (H ltac:(discriminate) ltac:(lia)).
  - do 2 (constructor; [by vm_compute|]). constructor.
  - do 2 (constructor; [intros w'; eexists; reflexivity|]). constructor.
  - reflexivity.
  - do 2 (constructor;
          [split; [lia|do 2 (constructor; [by vm_compute|]); constructor]|]).
    constructor.
Defined.

(** A complete run of two units: both callbacks in order, then the final
    one, each in the tick that ran the unit. *)
Example two_unit_run_example :
  let y := ticks [50; 50; 70; 30]
             (started [ImageLoadTask "a.png"; pause 0] 100 emptyWorld) in
  log y = [Exec 0; onUnitLoaded 0 2; Exec 1; onUnitLoaded 1 2; onAllLoaded] /\
  state (loader y) = Finished.
Proof. by vm_compute. Qed.

(** ** Mismatched frame and duration lists *)

(** A per-frame-delay unit with two frames and three durations loads
    without any exception, alone and from [doLoad]; so does a unit with
    fewer durations than frames whose name is already cached. *)
Lemma mismatched_lengths_may_load :
  let frames := ["f1"; "f2"] in
  let longer := ZwoptexAnimLoadTask2 frames [10; 20; 30] false "walk" in
  let shorter := ZwoptexAnimLoadTask2 frames [10] false "walk" in
  let y := started [longer; shorter] 0 emptyWorld in
  let y1 := fst (doLoad 0 y) in
  let y2 := fst (doLoad 100 y1) in
  length frames <> length [10; 20; 30] /\
  length frames <> length [10] /\
  fst (load longer emptyWorld) = Ok tt /\
  snd (doLoad 0 y) = None /\
  snd (doLoad 100 y1) = None /\
  log y2 = [Exec 0; onUnitLoaded 0 2; Exec 1; onUnitLoaded 1 2; onAllLoaded].
Proof. vm_compute. split_and!; done. Qed.

(** C9, amended. A per-frame-delay unit with fewer durations than frames,
    whose name is not in the animation cache, throws the [out_of_range] of
    [durations.at] at the first index without a duration and leaves the
    world as it was; a tick that runs it hands that exception to its
    caller, the cursor staying on the unit and no callback being made. *)
Theorem short_durations_throw (frames : list string) (durations : list duration)
    (restore : bool) (name : string) (d delta : duration) (y : Sys)
    (Hshort : (length durations < length frames)%nat)
    (Hfresh : animations (world y) !! name = None)
    (Hrunning : state (loader y) = Starting \/ state (loader y) = Active)
    (Hdue : drain (m_remainingIdle (loader y)) delta = 0)
    (Hnext : get (m_loadTaskList (loader y)) (m_nextLoad (loader y)) =
             Ok (with_idle d (ZwoptexAnimLoadTask2 frames durations restore name))) :
  let e := out_of_range (length durations) (length durations) in
  load (ZwoptexAnimLoadTask2 frames durations restore name) (world y) =
    (Throw e, world y) /\
  snd (doLoad delta y) = Some e /\
  m_nextLoad (loader (fst (doLoad delta y))) = m_nextLoad (loader y) /\
  world (fst (doLoad delta y)) = world y /\
  notices (log (fst (doLoad delta y))) = notices (log y).
Proof.
  intros e.
  pose proof (ZwoptexAnimLoadTask2_short frames durations restore name
                (world y) Hshort Hfresh) as Hload.
  split; [exact Hload|].
  pose proof (get_Ok _ _ _ Hnext) as [Hrange _].
  unfold doLoad. rewrite Hdue, Hnext.
  rewrite (bool_decide_eq_true_2 (0 = 0)) by done.
  rewrite bool_decide_eq_true_2 by lia. simpl. rewrite Hload.
  destruct Hrunning as [-> | ->]; simpl.
  all: rewrite notices_app; simpl; rewrite app_nil_r; done.
Qed.

Lemma short_durations_throw_witness :
  let frames := ["f1"; "f2"; "f3"] in
  let durations := [10; 20] in
  let y := started [with_idle 0 (ZwoptexAnimLoadTask2 frames durations false "walk")]
                   0 emptyWorld in
  ((length durations < length frames)%nat /\
   animations (world y) !! "walk" = None /\
   (state (loader y) = Starting \/ state (loader y) = Active) /\
   drain (m_remainingIdle (loader y)) 0 = 0 /\
   get (m_loadTaskList (loader y)) (m_nextLoad (loader y)) =
     Ok (with_idle 0 (ZwoptexAnimLoadTask2 frames durations false "walk"))) /\
  snd (doLoad 0 y) = Some (out_of_range 2 2).
Proof.
  intros frames durations y.
  assert (length durations < length frames)%nat as H1 by (simpl; lia).
  assert (animations (world y) !! "walk" = None) as H2 by reflexivity.
  assert (state (loader y) = Starting \/ state (loader y) = Active) as H3
    by (left; reflexivity).
  assert (drain (m_remainingIdle (loader y)) 0 = 0) as H4 by reflexivity.
  assert (get (m_loadTaskList (loader y)) (m_nextLoad (loader y)) =
          Ok (with_idle 0 (ZwoptexAnimLoadTask2 frames durations false "walk")))
    as H5 by reflexivity.
  split; [by split_and!|].
  apply (short_durations_throw frames durations false "walk" 0 0 y H1 H2 H3 H4 H5).
Defined.

(* ===================================================================== *)
(** * Part IV.  Further properties of the load tasks                      *)
(* ===================================================================== *)

(** ** What the animation units register *)

Lemma collectSpriteFrames_eq frames : forall array w,
  collectSpriteFrames frames array w = (Ok (array ++ (spriteEntry w <$> frames)), w).
Proof.
  induction frames as [|n rest IH]; intros array w; simpl.
  - by rewrite app_nil_r.
  - run_anim. rewrite IH. by rewrite <- app_assoc.
Qed.

Lemma collectAnimationFrames_eq frames durations fuel : forall i array w,
  (i + fuel = length frames)%nat ->
  (length frames <= length durations)%nat ->
  collectAnimationFrames frames durations i fuel array w =
  (Ok (array ++ zip_with (timedEntry w) (drop i frames) (drop i durations)), w).
Proof.
  induction fuel as [|fuel IH]; intros i array w Hsum Hlen; simpl.
  - rewrite drop_ge by lia. by rewrite app_nil_r.
  - run_anim.
    destruct (frames !! i) as [n|] eqn:Fi; simpl.
    2: { apply lookup_ge_None in Fi. lia. }
    destruct (durations !! i) as [d|] eqn:Di; simpl.
    2: { apply lookup_ge_None in Di. lia. }
    rewrite IH by lia.
    rewrite (drop_S _ _ _ Fi), (drop_S _ _ _ Di). simpl.
    by rewrite <- app_assoc.
Qed.

Lemma zip_with_extra {A B C} (f : A -> B -> C) (l : list A) : forall (k extra : list B),
  (length l <= length k)%nat -> zip_with f l (k ++ extra) = zip_with f l k.
Proof.
  induction l as [|x l IH]; intros k extra Hlen; [done|].
  destruct k as [|y k]; simpl in *; [lia|]. f_equal. apply IH. lia.
Qed.

Lemma ZwoptexAnimLoadTask_fresh frames name unitDelay restore w :
  animations w !! name = None ->
  ZwoptexAnimLoadTask_load frames name unitDelay restore w =
  (Ok tt,
   set_animations
     (<[name := mkAnimation (spriteEntry w <$> frames) unitDelay restore]>
        (animations w)) w).
Proof.
  intros Hfresh. unfold ZwoptexAnimLoadTask_load. run_anim. rewrite Hfresh.
  by rewrite collectSpriteFrames_eq.
Qed.

Lemma ZwoptexAnimLoadTask2_fresh frames durations restore name w :
  animations w !! name = None ->
  (length frames <= length durations)%nat ->
  ZwoptexAnimLoadTask2_load frames durations restore name w =
  (Ok tt,
   set_animations
     (<[name := mkAnimation (zip_with (timedEntry w) frames durations)
                            one_second restore]>
        (animations w)) w).
Proof.
  intros Hfresh Hlen. unfold ZwoptexAnimLoadTask2_load. run_anim. rewrite Hfresh.
  by rewrite (collectAnimationFrames_eq frames durations (length frames) 0 [] w
                eq_refl Hlen).
Qed.

(** X1. When its name is not cached, the uniform-delay animation unit
    returns normally and registers under that name an animation with one
    entry per frame name, in order, each the cache's sprite frame of that
    name, with the unit's delay and restore flag; nothing else changes. *)
Theorem uniform_animation_registered (frames : list string) (name : string)
    (unitDelay : duration) (restore : bool) (w : World)
    (Hfresh : animations w !! name = None) :
  load (ZwoptexAnimLoadTask frames name unitDelay restore) w =
  (Ok tt,
   set_animations
     (<[name := mkAnimation (spriteEntry w <$> frames) unitDelay restore]>
        (animations w)) w).
Proof. by apply ZwoptexAnimLoadTask_fresh. Qed.

Lemma uniform_animation_registered_witness :
  let w := set_spriteFrames {["f1" := mkSpriteFrame "f1" None]} emptyWorld in
  animations w !! "walk" = None /\
  animations (snd (load (ZwoptexAnimLoadTask ["f1"; "f2"] "walk" 40 true) w)) !! "walk" =
  Some (mkAnimation [SpriteFrameObj (Some (mkSpriteFrame "f1" None));
                     SpriteFrameObj None] 40 true).
Proof.
  intros w. split; [reflexivity|].
  rewrite (uniform_animation_registered ["f1"; "f2"] "walk" 40 true w eq_refl).
  reflexivity.
Defined.

(** X2. When its name is not cached and there are at least as many
    durations as frames, the per-frame-delay unit returns normally and
    registers an animation whose i-th entry pairs the i-th frame with the
    i-th duration, with a unit delay of one second (the literal [1] of
    the source, 1000 in the time unit used here); durations beyond the
    number of frames are ignored. *)
Theorem per_frame_animation_registered (frames : list string)
    (durations extra : list duration) (restore : bool) (name : string) (w : World)
    (Hfresh : animations w !! name = None)
    (Hlen : (length frames <= length durations)%nat) :
  load (ZwoptexAnimLoadTask2 frames durations restore name) w =
  (Ok tt,
   set_animations
     (<[name := mkAnimation (zip_with (timedEntry w) frames durations)
                            one_second restore]>
        (animations w)) w) /\
  load (ZwoptexAnimLoadTask2 frames (durations ++ extra) restore name) w =
  load (ZwoptexAnimLoadTask2 frames durations restore name) w.
Proof.
  simpl. rewrite !ZwoptexAnimLoadTask2_fresh by (rewrite ?length_app; done || lia).
  split; [done|]. by rewrite zip_with_extra.
Qed.

Lemma per_frame_animation_registered_witness :
  let w := set_spriteFrames {["f1" := mkSpriteFrame "f1" None]} emptyWorld in
  (animations w !! "walk" = None /\ (length ["f1"; "f2"] <= length [10; 20])%nat) /\
  animations (snd (load (ZwoptexAnimLoadTask2 ["f1"; "f2"] [10; 20] true "walk") w))
    !! "walk" =
  Some (mkAnimation [AnimationFrameObj (Some (mkSpriteFrame "f1" None)) 10;
                     AnimationFrameObj None 20] 1000 true).
Proof.
  intros w.
  assert (length ["f1"; "f2"] <= length [10; 20])%nat as Hlen by (simpl; lia).
  split; [split; [reflexivity|exact Hlen]|].
  destruct (per_frame_animation_registered ["f1"; "f2"] [10; 20] [30] true "walk" w
              eq_refl Hlen) as [-> _].
  reflexivity.
Defined.

(** X3. The per-frame-delay unit throws exactly when its name is not
    cached and it has fewer durations than frames; the exception is then
    the [out_of_range] of the first index without a duration, and the
    world is left as it was. *)
Theorem per_frame_animation_throws_iff (frames : list string)
    (durations : list duration) (restore : bool) (name : string)
    (w : World) (e : Exn) :
  (fst (load (ZwoptexAnimLoadTask2 frames durations restore name) w) = Throw e <->
   animations w !! name = None /\
   (length durations < length frames)%nat /\
   e = out_of_range (length durations) (length durations)) /\
  (fst (load (ZwoptexAnimLoadTask2 frames durations restore name) w) = Throw e ->
   snd (load (ZwoptexAnimLoadTask2 frames durations restore name) w) = w).
Proof.
  simpl.
  destruct (animations w !! name) as [a|] eqn:Hc.
  - rewrite ZwoptexAnimLoadTask2_cached by (rewrite Hc; eauto). simpl.
    split; [split; [done|by intros [? _]]|done].
  - destruct (decide (length frames <= length durations)%nat) as [Hlen|Hlen].
    + pose proof (ZwoptexAnimLoadTask2_long frames durations restore name w Hlen) as Hok.
      rewrite Hok. split; [split; [done|intros (_ & ? & _); lia]|done].
    + rewrite ZwoptexAnimLoadTask2_short by (done || lia). simpl.
      split; [|done]. split.
      * intros [= <-]. split_and!; [done|lia|done].
      * by intros (_ & _ & ->).
Qed.


(** ** The animation cache under the animation units *)

(** What an animation unit does to the world: one insertion under its own
    name when that name is unused and the animation can be built, nothing
    otherwise. *)
Lemma animTask_world (a : AnimTask) (w : World) :
  snd (load (animTask a) w) =
  match animations w !! animName a, builtAnimation a w with
  | None, Some anim => set_animations (<[animName a := anim]> (animations w)) w
  | _, _ => w
  end.
Proof.
  destruct (animations w !! animName a) as [c|] eqn:Hc.
  - destruct a; simpl in *.
    + by rewrite ZwoptexAnimLoadTask_cached by (rewrite Hc; eauto).
    + by rewrite ZwoptexAnimLoadTask2_cached by (rewrite Hc; eauto).
  - destruct a as [frames name unitDelay restore|frames durations restore name];
      simpl in *.
    + by rewrite ZwoptexAnimLoadTask_fresh.
    + case_decide.
      * by rewrite ZwoptexAnimLoadTask2_fresh.
      * by rewrite ZwoptexAnimLoadTask2_short by (done || lia).
Qed.

Lemma builtAnimation_set_animations a m w :
  builtAnimation a (set_animations m w) = builtAnimation a w.
Proof. by destruct a. Qed.

(** X4. An animation unit of either kind never replaces or removes an
    entry of the animation cache: a name cached before the unit runs maps
    to the same animation afterwards, whether the unit returns or throws;
    and the unit leaves the files, the heap, the sprite-frame cache and the
    call log alone. *)
Theorem cached_animations_are_kept (a : AnimTask) (w : World)
    (n : string) (anim : CCAnimation)
    (Hcached : animations w !! n = Some anim) :
  let w' := snd (load (animTask a) w) in
  animations w' !! n = Some anim /\
  files w' = files w /\ heap w' = heap w /\
  spriteFrames w' = spriteFrames w /\ calls w' = calls w.
Proof.
  intros w'. subst w'. rewrite animTask_world.
  destruct (animations w !! animName a) as [c|] eqn:Hc; [done|].
  destruct (builtAnimation a w); [|done]. simpl.
  split_and!; try done.
  rewrite lookup_insert_ne; [done|]. congruence.
Qed.

Lemma cached_animations_are_kept_witness :
  let old := mkAnimation [] 7 false in
  let w := set_animations {["walk" := old]} emptyWorld in
  animations w !! "walk" = Some old /\
  animations (snd (load (ZwoptexAnimLoadTask ["f1"] "walk" 40 true) w)) !! "walk" =
  Some old.
Proof.
  intros old w. split; [reflexivity|].
  apply (cached_animations_are_kept (UniformAnim ["f1"] "walk" 40 true) w "walk" old
           eq_refl).
Defined.

(** X5. Animation units with different names commute: run in either
    order they leave the same world. *)
Theorem animation_units_commute (a b : AnimTask) (w : World)
    (Hnames : animName a <> animName b) :
  snd (load (animTask b) (snd (load (animTask a) w))) =
  snd (load (animTask a) (snd (load (animTask b) w))).
Proof.
  rewrite (animTask_world a w), (animTask_world b w).
  destruct (animations w !! animName a) as [ca|] eqn:Ha;
    destruct (animations w !! animName b) as [cb|] eqn:Hb;
    destruct (builtAnimation a w) as [xa|] eqn:Ba;
    destruct (builtAnimation b w) as [xb|] eqn:Bb.
  all: rewrite ?animTask_world, ?builtAnimation_set_animations; simpl.
  all: rewrite ?lookup_insert_ne by done.
  all: rewrite ?Ha, ?Hb, ?Ba, ?Bb; try done.
  unfold set_animations; simpl. f_equal. by apply insert_insert_ne.
Qed.

Lemma animation_units_commute_witness :
  let a := UniformAnim ["f1"] "walk" 40 true in
  let b := PerFrameAnim ["f1"; "f2"] [10; 20] false "jump" in
  animName a <> animName b /\
  snd (load (animTask b) (snd (load (animTask a) emptyWorld))) =
  snd (load (animTask a) (snd (load (animTask b) emptyWorld))).
Proof.
  intros a b.
  assert (animName a <> animName b) as H by discriminate.
  split; [exact H|]. apply (animation_units_commute a b emptyWorld H).
Defined.

(** ** Encrypted units: composition and memory *)

Lemma fresh_not_live (h : gmap nat (list Byte.byte)) :
  h !! fresh ({[NULL]} ∪ dom h) = None.
Proof.
  apply not_elem_of_dom. pose proof (is_fresh ({[NULL]} ∪ dom h)). set_solver.
Qed.

Lemma atlas_is_image_then_frames plist texName func w :
  load (EncryptedZwoptexLoadTask plist texName func) w =
  addSpriteFramesWithFile plist (Some texName)
    (snd (load (EncryptedImageLoadTask texName func) w)).
Proof.
  simpl. unfold EncryptedZwoptexLoadTask_load, EncryptedImageLoadTask_load.
  run_task. texture_cases texName func w.
Qed.

(** X6. The encrypted atlas unit is the encrypted image unit for its
    texture followed by the registration of the plist's frames with that
    texture: same result, same world. *)
Theorem encrypted_atlas_composes (plist texName : string) (func : DECRYPT_FUNC)
    (w : World) :
  load (EncryptedZwoptexLoadTask plist texName func) w =
  addSpriteFramesWithFile plist (Some texName)
    (snd (load (EncryptedImageLoadTask texName func) w)).
Proof. apply atlas_is_image_then_frames. Qed.

Lemma tidy_facts f data len (h : gmap nat (list Byte.byte)) dec decLen h' :
  tidy (Some f) -> f data len h = (dec, decLen, h') ->
  (is_Some (h !! data) -> is_Some (h' !! data)) /\
  (dec = data \/ dec = NULL \/ (h !! dec = None /\ is_Some (h' !! dec))) /\
  (forall q, q <> data -> q <> dec -> h' !! q = h !! q).
Proof.
  intros Htidy F. specialize (Htidy data len h). by rewrite F in Htidy.
Qed.

Lemma tidy_heap f data len (h : gmap nat (list Byte.byte)) dec decLen h' :
  tidy (Some f) -> f data len h = (dec, decLen, h') ->
  h !! NULL = None ->
  delete data (delete dec h') = delete data h.
Proof.
  intros Htidy F Hnull.
  destruct (tidy_facts _ _ _ _ _ _ _ Htidy F) as (_ & Hdec & Hrest).
  apply map_eq. intros q.
  destruct (decide (q = data)) as [-> | Hqd].
  - by rewrite !lookup_delete_eq.
  - rewrite !(lookup_delete_ne _ data) by done.
    destruct (decide (q = dec)) as [-> | Hqc].
    + rewrite lookup_delete_eq.
      destruct Hdec as [Hd | [Hd | [Hd _]]]; [done|by rewrite Hd, Hnull|by rewrite Hd].
    + rewrite lookup_delete_ne by done. by apply Hrest.
Qed.

Lemma EncryptedImageLoadTask_heap name func w :
  heap w !! NULL = None -> tidy func ->
  heap (snd (load (EncryptedImageLoadTask name func) w)) = heap w.
Proof.
  intros Hnull Htidy. simpl. unfold EncryptedImageLoadTask_load. run_task.
  pose proof (fresh_not_live (heap w)) as Hfresh.
  pose proof (fresh_not_NULL (heap w)) as Hnn.
  assert (<[fresh ({[NULL]} ∪ dom (heap w)) := default [] (files w !! name)]>
            (heap w) !! NULL = None) as Hnull1
    by (rewrite lookup_insert_ne; done).
  destruct (files w !! name) as [bytes|] eqn:E; simpl in *;
    destruct func as [f|]; simpl.
  all: repeat match goal with
       | |- context [?f ?p ?n ?h] =>
           match type of f with
           | nat -> Z -> _ -> _ =>
               let F := fresh "F" in
               destruct (f p n h) as [[?dec ?decLen] ?h'] eqn:F; simpl
           end
       end.
  all: try by apply delete_id.
  all: try (case_decide; [done|]; simpl; rewrite ?delete_insert_eq;
            by apply delete_id).
  all: destruct (decide (_ ≠ _)) as [Hne | Heq%dec_stable]; simpl;
         [|subst; etrans; [symmetry; apply delete_delete_eq|]].
  all: match goal with
       | F : _ = (_, _, _) |- _ =>
           rewrite (tidy_heap _ _ _ _ _ _ _ Htidy F) by assumption
       end.
  all: rewrite ?delete_insert_eq.
  all: by apply delete_id.
Qed.

Lemma EncryptedImageLoadTask_frees name func w :
  tidy func ->
  invalidFrees (snd (load (EncryptedImageLoadTask name func) w)) = invalidFrees w.
Proof.
  intros Htidy. simpl. unfold EncryptedImageLoadTask_load. run_task.
  pose proof (fresh_not_NULL (heap w)) as Hnn.
  destruct (files w !! name) as [bytes|] eqn:E; simpl in *;
    destruct func as [f|]; simpl.
  all: repeat match goal with
       | |- context [?f ?p ?n ?h] =>
           match type of f with
           | nat -> Z -> _ -> _ =>
               let F := fresh "F" in
               destruct (f p n h) as [[?dec ?decLen] ?h'] eqn:F; simpl;
               destruct (tidy_facts _ _ _ _ _ _ _ Htidy F) as (Hkeep & Hdec & _)
           end
       end.
  all: repeat (case_decide; simpl).
  all: rewrite ?app_nil_r; try done.
  all: exfalso.
  all: repeat match goal with H : _ /\ _ |- _ => destruct H end.
  all: rewrite ?lookup_delete_ne, ?lookup_insert_eq in * by done.
  all: try done.
  all: try (specialize (Hkeep ltac:(eauto))).
  all: try (destruct Hdec as [? | [? | [_ ?]]]; try done).
  all: repeat match goal with
       | H1 : ?a = None, H2 : is_Some ?a |- _ =>
           rewrite H1 in H2; by apply is_Some_None in H2
       end.
  all: subst.
  all: repeat match goal with
       | H1 : ?a = None, H2 : is_Some ?a |- _ =>
           rewrite H1 in H2; by apply is_Some_None in H2
       end.
Qed.

(** X7. With a hook that keeps to its own memory, or with none, an
    encrypted image or atlas unit is clean with memory: every pointer it
    frees is null or live when freed (no double free, no free of a buffer
    that was never allocated), and it leaves the heap exactly as it found
    it, the raw buffer and the decrypted buffer both released and no
    other buffer touched. *)
Theorem encrypted_units_keep_heap (name plist : string) (func : DECRYPT_FUNC)
    (w : World)
    (Hnull : heap w !! NULL = None)
    (Htidy : tidy func) :
  let image := snd (load (EncryptedImageLoadTask name func) w) in
  let atlas := snd (load (EncryptedZwoptexLoadTask plist name func) w) in
  invalidFrees image = invalidFrees w /\
  invalidFrees atlas = invalidFrees w /\
  heap image = heap w /\
  heap atlas = heap w.
Proof.
  intros image atlas. subst image atlas.
  rewrite atlas_is_image_then_frames. simpl.
  split_and!.
  - by apply EncryptedImageLoadTask_frees.
  - by apply EncryptedImageLoadTask_frees.
  - by apply EncryptedImageLoadTask_heap.
  - by apply EncryptedImageLoadTask_heap.
Qed.

Lemma inPlaceHook_tidy : tidy inPlaceHook.
Proof.
  intros data len h. simpl. split_and!.
  - intros _. rewrite lookup_insert_eq. eauto.
  - by left.
  - intros q Hq _. by rewrite lookup_insert_ne.
Qed.

Lemma copyingHook_tidy : tidy copyingHook.
Proof.
  intros data len h. simpl.
  pose proof (is_fresh ({[NULL; data]} ∪ dom h)) as Hf.
  split_and!.
  - intros Hd. rewrite lookup_insert_ne; [done|]. set_solver.
  - right. right. split.
    + apply not_elem_of_dom. set_solver.
    + rewrite lookup_insert_eq. eauto.
  - intros q _ Hq. by rewrite lookup_insert_ne.
Qed.

(** A hook that frees the buffer it is given is not tidy, and the unit
    then frees that buffer a second time. *)
Example freeing_hook_double_free :
  let hook : DECRYPT_FUNC :=
    Some (fun p len h => let q := S p in (q, len, <[q := [Byte.x00]]> (delete p h))) in
  ~ tidy hook /\
  invalidFrees (snd (load (EncryptedImageLoadTask "a.png" hook) sampleWorld)) = [1%nat].
Proof.
  split; [|reflexivity].
  intros H. destruct (H 1%nat 0 {[1%nat := []]}) as (Hkeep & _).
  simpl in Hkeep. specialize (Hkeep ltac:(rewrite lookup_singleton_eq; eauto)).
  vm_compute in Hkeep. by apply is_Some_None in Hkeep.
Qed.

Lemma encrypted_units_keep_heap_witness :
  let image := snd (load (EncryptedImageLoadTask "a.png" copyingHook) sampleWorld) in
  let atlas :=
    snd (load (EncryptedZwoptexLoadTask "a.plist" "a.png" copyingHook) sampleWorld) in
  (heap sampleWorld !! NULL = None /\ tidy copyingHook) /\
  invalidFrees image = invalidFrees sampleWorld /\
  invalidFrees atlas = invalidFrees sampleWorld /\
  heap image = heap sampleWorld /\
  heap atlas = heap sampleWorld.
Proof.
  split; [split; [reflexivity|exact copyingHook_tidy]|].
  apply (encrypted_units_keep_heap "a.png" "a.plist" copyingHook sampleWorld
           eq_refl copyingHook_tidy).
Defined.

(** ** Encrypted units: the file *)

Lemma to_int_small z : 0 <= z < 2 ^ 31 -> to_int z = z.
Proof. intros Hz. unfold to_int. rewrite Z.mod_small; lia. Qed.

(** X8. Without a hook, for a file that exists and is shorter than 2^31
    bytes, the encrypted image unit reads the file into a new buffer, hands
    the decoder exactly the bytes of the file and their number, registers
    the texture under the file's name and frees the buffer: four calls, in
    this order, and no exception. *)
Theorem raw_image_decoded_as_read (name : string) (bytes : list Byte.byte)
    (w : World)
    (Hfile : files w !! name = Some bytes)
    (Hsize : Z.of_nat (length bytes) < 2 ^ 31) :
  let data := fresh ({[NULL]} ∪ dom (heap w)) in
  let len := Z.of_nat (length bytes) in
  let r := load (EncryptedImageLoadTask name None) w in
  data <> NULL /\ heap w !! data = None /\
  fst r = Ok tt /\
  calls (snd r) =
    calls w ++ [CGetFileData name data len; CInitWithImageData data (Some bytes) len;
                CAddUIImage name; CFree data].
Proof.
  intros data len r. subst data len r.
  split; [apply fresh_not_NULL|]. split; [apply fresh_not_live|].
  simpl. unfold EncryptedImageLoadTask_load. run_task. rewrite Hfile. simpl.
  rewrite (deref_insert _ _ _ (fresh_not_NULL _)).
  rewrite to_int_small by lia.
  case_decide; [done|]. simpl. split; [done|]. by rewrite <- !app_assoc.
Qed.

Lemma raw_image_decoded_as_read_witness :
  (files sampleWorld !! "a.png" = Some [Byte.x41; Byte.x42] /\
   Z.of_nat (length [Byte.x41; Byte.x42]) < 2 ^ 31) /\
  calls (snd (load (EncryptedImageLoadTask "a.png" None) sampleWorld)) =
  [CGetFileData "a.png" 1 2; CInitWithImageData 1 (Some [Byte.x41; Byte.x42]) 2;
   CAddUIImage "a.png"; CFree 1].
Proof.
  assert (Z.of_nat (length [Byte.x41; Byte.x42]) < 2 ^ 31) as Hsize by (simpl; lia).
  split; [split; [reflexivity|exact Hsize]|].
  destruct (raw_image_decoded_as_read "a.png" [Byte.x41; Byte.x42] sampleWorld
              eq_refl Hsize) as (_ & _ & _ & H).
  exact H.
Defined.

(** X9. A missing file stops nothing: the encrypted image unit has no
    check on what [getFileData] returns, so with a null buffer of length 0
    it still calls the hook, if any, still runs the decoder on the result,
    still registers a texture under the name, and returns normally. *)
Theorem missing_file_is_not_checked (name : string) (func : DECRYPT_FUNC)
    (w : World)
    (Hmissing : files w !! name = None) :
  let r := load (EncryptedImageLoadTask name func) w in
  fst r = Ok tt /\
  calls (snd r) =
    calls w ++
    CGetFileData name NULL 0 ::
    match func with
    | None => [CInitWithImageData NULL None 0; CAddUIImage name; CFree NULL]
    | Some f =>
        let '(dec, decLen, h') := f NULL 0 (heap w) in
        [CDecrypt NULL None 0; CInitWithImageData dec (deref h' dec) decLen;
         CAddUIImage name] ++
        (if decide (dec ≠ NULL) then [CFree dec] else []) ++ [CFree NULL]
    end.
Proof.
  intros r. subst r. simpl. unfold EncryptedImageLoadTask_load. run_task.
  rewrite Hmissing. simpl.
  destruct func as [f|]; simpl.
  - change (to_int 0) with 0.
    destruct (f NULL 0 (heap w)) as [[dec decLen] h'] eqn:F. simpl.
    case_decide; simpl; (split; [done|]); by rewrite <- !app_assoc.
  - split; [done|]. by rewrite <- !app_assoc.
Qed.

Lemma missing_file_is_not_checked_witness :
  files sampleWorld !! "b.png" = None /\
  calls (snd (load (EncryptedImageLoadTask "b.png" sampleHook) sampleWorld)) =
  [CGetFileData "b.png" 0 0; CDecrypt 0 None 0;
   CInitWithImageData 1 (Some [Byte.x00]) 0; CAddUIImage "b.png"; CFree 1; CFree 0].
Proof.
  split; [reflexivity|].
  destruct (missing_file_is_not_checked "b.png" sampleHook sampleWorld eq_refl)
    as [_ H].
  exact H.
Defined.
